(** * logrus-gce: the formatter of package logrusgce

    A shallow embedding of gceformatter.go and of the parts of the Go
    standard library it calls (encoding/json, time, strconv,
    unicode/utf8, runtime), with the properties of [getSkipLevel] and
    [Format]. *)

From Stdlib Require Import ZArith NArith Ascii String List Lia Bool.
From stdpp Require Import base tactics option list strings gmap sorting relations.

Local Open Scope N_scope.

(** * Bytes

    Go strings and [[]byte] are byte sequences.  A Go [string] is a Rocq
    [string] (a list of 8-bit [ascii]); a byte slice is a [list ascii]. *)

Definition bval (c : ascii) : N := N_of_ascii c.

Definition bytesOf (s : string) : list ascii := list_ascii_of_string s.

Definition stringOf (l : list ascii) : string := string_of_list_ascii l.

Definition quote : ascii := "034"%char.

Definition backslash : ascii := "092"%char.

Definition newline : ascii := "010"%char.

(** * unicode/utf8

    [utf8.DecodeRuneInString]: the [first] table of the standard library
    gives, for a leading byte, the length of the encoding and the range
    accepted for the second byte. *)

Definition RuneError : N := 0xFFFD.

Variant firstInfo :=
  | FirstASCII
  | FirstInvalid
  | FirstLead (size : nat) (lo hi : N).

Definition utf8_first (b : N) : firstInfo :=
  if b <? 0x80 then FirstASCII
  else if b <? 0xC2 then FirstInvalid
  else if b <? 0xE0 then FirstLead 2 0x80 0xBF
  else if b =? 0xE0 then FirstLead 3 0xA0 0xBF
  else if b <? 0xED then FirstLead 3 0x80 0xBF
  else if b =? 0xED then FirstLead 3 0x80 0x9F
  else if b <? 0xF0 then FirstLead 3 0x80 0xBF
  else if b =? 0xF0 then FirstLead 4 0x90 0xBF
  else if b <? 0xF4 then FirstLead 4 0x80 0xBF
  else if b =? 0xF4 then FirstLead 4 0x80 0x8F
  else FirstInvalid.

Definition byteAt (s : list ascii) (i : nat) : N := bval (nth i s zero).

Definition isCont (b : N) : bool := (0x80 <=? b) && (b <=? 0xBF).

Definition utf8_DecodeRuneInString (s : list ascii) : N * nat :=
  match s with
  | [] => (RuneError, 0%nat)
  | _ =>
    let s0 := byteAt s 0 in
    match utf8_first s0 with
    | FirstASCII => (s0, 1%nat)
    | FirstInvalid => (RuneError, 1%nat)
    | FirstLead sz lo hi =>
      if (List.length s <? sz)%nat then (RuneError, 1%nat)
      else
        let s1 := byteAt s 1 in
        if (s1 <? lo) || (hi <? s1) then (RuneError, 1%nat)
        else if (sz <=? 2)%nat then
          (N.lor (N.shiftl (N.land s0 0x1F) 6) (N.land s1 0x3F), 2%nat)
        else
          let s2 := byteAt s 2 in
          if negb (isCont s2) then (RuneError, 1%nat)
          else if (sz <=? 3)%nat then
            (N.lor (N.lor (N.shiftl (N.land s0 0x0F) 12)
                          (N.shiftl (N.land s1 0x3F) 6))
                   (N.land s2 0x3F), 3%nat)
          else
            let s3 := byteAt s 3 in
            if negb (isCont s3) then (RuneError, 1%nat)
            else
              (N.lor (N.lor (N.lor (N.shiftl (N.land s0 0x07) 18)
                                   (N.shiftl (N.land s1 0x3F) 12))
                            (N.shiftl (N.land s2 0x3F) 6))
                     (N.land s3 0x3F), 4%nat)
    end
  end.

(** [utf8.ValidString]: no position decodes to [(RuneError, 1)]. *)
Fixpoint utf8_valid_loop (fuel : nat) (s : list ascii) : bool :=
  match fuel, s with
  | _, [] => true
  | O, _ :: _ => false
  | S fuel, _ :: _ =>
    let '(r, size) := utf8_DecodeRuneInString s in
    if (r =? RuneError) && (size =? 1)%nat then false
    else utf8_valid_loop fuel (drop size s)
  end.

Definition utf8_ValidString (s : string) : bool :=
  utf8_valid_loop (String.length s) (bytesOf s).

(** [utf8.AppendRune] for the code points a [\uXXXX] escape can name. *)
Definition utf8_AppendRune (r : N) : list ascii :=
  if r <? 0x80 then [ascii_of_N r]
  else if r <? 0x800 then
    [ascii_of_N (N.lor 0xC0 (N.shiftr r 6));
     ascii_of_N (N.lor 0x80 (N.land r 0x3F))]
  else
    [ascii_of_N (N.lor 0xE0 (N.shiftr r 12));
     ascii_of_N (N.lor 0x80 (N.land (N.shiftr r 6) 0x3F));
     ascii_of_N (N.lor 0x80 (N.land r 0x3F))].

(** * strconv

    [strconv.AppendInt(dst, i, 10)]: the decimal digits, most significant
    first, after a minus sign for a negative number. *)

Definition digitChar (d : N) : ascii := ascii_of_N (48 + d).

Fixpoint formatBits (fuel : nat) (u : N) (acc : list ascii) : list ascii :=
  let acc := digitChar (u mod 10) :: acc in
  match fuel with
  | O => acc
  | S fuel => if u <? 10 then acc else formatBits fuel (u / 10) acc
  end.

Definition strconv_FormatUint (u : N) : list ascii :=
  formatBits (N.to_nat (N.log2 u)) u [].

Definition strconv_FormatInt (i : Z) : list ascii :=
  if (i <? 0)%Z then "-"%char :: strconv_FormatUint (Z.to_N (- i))
  else strconv_FormatUint (Z.to_N i).

(** * encoding/json: the document tree and its compact rendering *)

Inductive json :=
  | JNull
  | JBool (b : bool)
  | JNum (n : Z)
  | JStr (s : string)
  | JArr (elems : list json)
  | JObj (members : list (string * json)).

Definition hexDigit (n : N) : ascii :=
  nth (N.to_nat n) (bytesOf "0123456789abcdef") zero.

(** [htmlSafeSet] of encoding/json: the ASCII bytes written as they are
    when HTML escaping is on, as it is for [json.Marshal]. *)
Definition htmlSafe (b : N) : bool :=
  (0x20 <=? b) && (b <? 0x80)
  && negb ((b =? 0x22) || (b =? 0x26) || (b =? 0x3C) || (b =? 0x3E)
           || (b =? 0x5C)).

Definition json_escapeByte (c : ascii) : list ascii :=
  let b := bval c in
  if htmlSafe b then [c]
  else if (b =? 0x5C) || (b =? 0x22) then [backslash; c]
  else if b =? 0x08 then [backslash; "b"%char]
  else if b =? 0x0C then [backslash; "f"%char]
  else if b =? 0x0A then [backslash; "n"%char]
  else if b =? 0x0D then [backslash; "r"%char]
  else if b =? 0x09 then [backslash; "t"%char]
  else [backslash; "u"%char; "0"%char; "0"%char;
        hexDigit (N.shiftr b 4); hexDigit (N.land b 0xF)].

(** The loop of [appendString]: ASCII bytes are copied or escaped, an
    invalid byte becomes the escape of U+FFFD, U+2028 and U+2029 are
    escaped, every other rune is copied. *)
Fixpoint json_appendString_loop (fuel : nat) (s : list ascii) : list ascii :=
  match fuel, s with
  | S fuel, c :: t =>
    if bval c <? 0x80 then json_escapeByte c ++ json_appendString_loop fuel t
    else
      let '(r, size) := utf8_DecodeRuneInString s in
      if (r =? RuneError) && (size =? 1)%nat then
        backslash :: bytesOf "ufffd" ++ json_appendString_loop fuel t
      else if (r =? 0x2028) || (r =? 0x2029) then
        backslash :: bytesOf "u202" ++ hexDigit (N.land r 0xF)
          :: json_appendString_loop fuel (drop size s)
      else take size s ++ json_appendString_loop fuel (drop size s)
  | _, _ => []
  end.

Definition json_appendString (s : string) : list ascii :=
  quote :: json_appendString_loop (String.length s) (bytesOf s) ++ [quote].

Fixpoint joinWith (sep : ascii) (parts : list (list ascii)) : list ascii :=
  match parts with
  | [] => []
  | [p] => p
  | p :: rest => p ++ sep :: joinWith sep rest
  end.

Fixpoint json_render (j : json) : list ascii :=
  match j with
  | JNull => bytesOf "null"
  | JBool true => bytesOf "true"
  | JBool false => bytesOf "false"
  | JNum n => strconv_FormatInt n
  | JStr s => json_appendString s
  | JArr elems =>
    "["%char :: joinWith ","%char (map json_render elems) ++ ["]"%char]
  | JObj members =>
    "{"%char ::
      joinWith ","%char
        (map (λ kv, let '(k, v) := kv in
                    json_appendString k ++ ":"%char :: json_render v)
             members)
      ++ ["}"%char]
  end.

(** * A decoder for compact JSON

    The decoder reads the documents [json_render] writes: RFC 8259
    without insignificant whitespace, integers for numbers.  Every text
    it accepts is a JSON text. *)

Definition isDigit (c : ascii) : bool := (48 <=? bval c) && (bval c <=? 57).

Fixpoint parseDigits (acc : N) (s : list ascii) : N * list ascii :=
  match s with
  | c :: t =>
    if isDigit c then parseDigits (acc * 10 + (bval c - 48)) t else (acc, s)
  | [] => (acc, [])
  end.

Definition parseNat (s : list ascii) : option (N * list ascii) :=
  match s with
  | c :: t =>
    if Ascii.eqb c "0" then Some (0, t)
    else if isDigit c then Some (parseDigits (bval c - 48) t)
    else None
  | [] => None
  end.

Definition parseNumber (s : list ascii) : option (Z * list ascii) :=
  match s with
  | c :: t =>
    if Ascii.eqb c "-" then
      match parseNat t with
      | Some (n, r) => Some ((- Z.of_N n)%Z, r)
      | None => None
      end
    else
      match parseNat s with
      | Some (n, r) => Some (Z.of_N n, r)
      | None => None
      end
  | [] => None
  end.

Definition hexVal (c : ascii) : option N :=
  let b := bval c in
  if (48 <=? b) && (b <=? 57) then Some (b - 48)
  else if (97 <=? b) && (b <=? 102) then Some (b - 87)
  else if (65 <=? b) && (b <=? 70) then Some (b - 55)
  else None.

Definition hex4 (a b c d : ascii) : option N :=
  match hexVal a, hexVal b, hexVal c, hexVal d with
  | Some x, Some y, Some z, Some w => Some (((x * 16 + y) * 16 + z) * 16 + w)
  | _, _, _, _ => None
  end.

Definition isSurrogate (r : N) : bool := (0xD800 <=? r) && (r <=? 0xDFFF).

Definition unescape (e : ascii) : option ascii :=
  if Ascii.eqb e quote then Some quote
  else if Ascii.eqb e backslash then Some backslash
  else if Ascii.eqb e "/" then Some "/"%char
  else if Ascii.eqb e "b" then Some "008"%char
  else if Ascii.eqb e "f" then Some "012"%char
  else if Ascii.eqb e "n" then Some "010"%char
  else if Ascii.eqb e "r" then Some "013"%char
  else if Ascii.eqb e "t" then Some "009"%char
  else None.

(** The characters of a string literal, after its opening quote, up to
    and including the closing quote. *)
Fixpoint parseChars (s : list ascii) : option (list ascii * list ascii) :=
  match s with
  | [] => None
  | c :: t =>
    if Ascii.eqb c quote then Some ([], t)
    else if Ascii.eqb c backslash then
      match t with
      | [] => None
      | e :: t' =>
        if Ascii.eqb e "u" then
          match t' with
          | h1 :: h2 :: h3 :: h4 :: t'' =>
            match hex4 h1 h2 h3 h4 with
            | Some r =>
              if isSurrogate r then None
              else
                match parseChars t'' with
                | Some (l, rest) => Some (utf8_AppendRune r ++ l, rest)
                | None => None
                end
            | None => None
            end
          | _ => None
          end
        else
          match unescape e with
          | Some b =>
            match parseChars t' with
            | Some (l, rest) => Some (b :: l, rest)
            | None => None
            end
          | None => None
          end
      end
    else if bval c <? 0x20 then None
    else
      match parseChars t with
      | Some (l, rest) => Some (c :: l, rest)
      | None => None
      end
  end.

Definition parseString (s : list ascii) : option (string * list ascii) :=
  match s with
  | c :: t =>
    if Ascii.eqb c quote then
      match parseChars t with
      | Some (l, rest) => Some (stringOf l, rest)
      | None => None
      end
    else None
  | [] => None
  end.

Definition expect (lit : string) (j : json) (s : list ascii)
  : option (json * list ascii) :=
  let l := bytesOf lit in
  if decide (take (List.length l) s = l)
  then Some (j, drop (List.length l) s) else None.

Fixpoint parseValue (fuel : nat) (s : list ascii)
  : option (json * list ascii) :=
  match fuel with
  | O => None
  | S fuel =>
    match s with
    | [] => None
    | c :: t =>
      if Ascii.eqb c "n" then expect "null" JNull s
      else if Ascii.eqb c "t" then expect "true" (JBool true) s
      else if Ascii.eqb c "f" then expect "false" (JBool false) s
      else if Ascii.eqb c quote then
        match parseString s with
        | Some (str, rest) => Some (JStr str, rest)
        | None => None
        end
      else if Ascii.eqb c "[" then
        match t with
        | c' :: t' =>
          if Ascii.eqb c' "]" then Some (JArr [], t')
          else
            match parseElems fuel t with
            | Some (l, rest) => Some (JArr l, rest)
            | None => None
            end
        | [] => None
        end
      else if Ascii.eqb c "{" then
        match t with
        | c' :: t' =>
          if Ascii.eqb c' "}" then Some (JObj [], t')
          else
            match parseMembers fuel t with
            | Some (l, rest) => Some (JObj l, rest)
            | None => None
            end
        | [] => None
        end
      else
        match parseNumber s with
        | Some (n, rest) => Some (JNum n, rest)
        | None => None
        end
    end
  end
with parseElems (fuel : nat) (s : list ascii)
  : option (list json * list ascii) :=
  match fuel with
  | O => None
  | S fuel =>
    match parseValue fuel s with
    | Some (v, c :: rest) =>
      if Ascii.eqb c "," then
        match parseElems fuel rest with
        | Some (l, rest') => Some (v :: l, rest')
        | None => None
        end
      else if Ascii.eqb c "]" then Some ([v], rest)
      else None
    | _ => None
    end
  end
with parseMembers (fuel : nat) (s : list ascii)
  : option (list (string * json) * list ascii) :=
  match fuel with
  | O => None
  | S fuel =>
    match parseString s with
    | Some (k, c :: rest) =>
      if Ascii.eqb c ":" then
        match parseValue fuel rest with
        | Some (v, c' :: rest') =>
          if Ascii.eqb c' "," then
            match parseMembers fuel rest' with
            | Some (l, rest'') => Some ((k, v) :: l, rest'')
            | None => None
            end
          else if Ascii.eqb c' "}" then Some ([(k, v)], rest')
          else None
        | _ => None
        end
      else None
    | _ => None
    end
  end.

(** [json_decode text] is the document [text] denotes, when [text] is one
    JSON value and nothing else. *)
Definition json_decode (text : list ascii) : option json :=
  match parseValue (List.length text) text with
  | Some (j, []) => Some j
  | _ => None
  end.

(** The value of member [k] of a decoded object (the first one, were the
    name repeated). *)
Fixpoint member (k : string) (members : list (string * json)) : option json :=
  match members with
  | [] => None
  | (k', v) :: rest => if String.eqb k k' then Some v else member k rest
  end.

(** * Go values and errors *)

(** The dynamic values a field ([interface{}]) holds.  [VErr] is an
    [error] whose concrete type has no exported field and no JSON method
    (what [errors.New] and [fmt.Errorf] return); [VUnsupported] is a value
    of a type encoding/json refuses (a channel, a function, a complex
    number), with the name of that type.  Floating-point values are left
    out. *)
Inductive value :=
  | VNil
  | VBool (b : bool)
  | VInt (n : Z)
  | VStr (s : string)
  | VErr (msg : string)
  | VUnsupported (ty : string)
  | VSlice (elems : list value)
  | VMap (m : gmap string value).

Inductive error :=
  | ErrSkipNotFound
  | json_UnsupportedTypeError (ty : string)
  | fmt_Errorf (msg : string).

(** The [Error()] method. *)
Definition Error (e : error) : string :=
  match e with
  | ErrSkipNotFound => "could not find skips for log level"
  | json_UnsupportedTypeError ty => "json: unsupported type: " +:+ ty
  | fmt_Errorf msg => msg
  end.

(** A Go result pair [(T, error)]: either the value with a nil error, or
    the error. *)
Inductive result (A : Type) :=
  | Ok (a : A)
  | Err (e : error).

Arguments Ok {A} a.

Arguments Err {A} e.

Fixpoint sequence {A} (l : list (result A)) : result (list A) :=
  match l with
  | [] => Ok []
  | Err e :: _ => Err e
  | Ok a :: rest =>
    match sequence rest with
    | Ok l' => Ok (a :: l')
    | Err e => Err e
    end
  end.

Definition withKey {A} (kr : string * result A) : result (string * A) :=
  match kr.2 with
  | Ok a => Ok (kr.1, a)
  | Err e => Err e
  end.

(** Map keys are written in increasing byte order. *)
Definition keyLe {A} (p q : string * A) : Prop := String.leb p.1 q.1 = true.

#[global] Instance keyLe_dec {A} (p q : string * A) : Decision (keyLe p q).
Proof. unfold keyLe. apply _. Defined.

Definition sortKeys {A} (l : list (string * A)) : list (string * A) :=
  merge_sort keyLe l.

(** The document [json.Marshal] writes for a value, or its error. *)
Fixpoint json_encode (v : value) : result json :=
  match v with
  | VNil => Ok JNull
  | VBool b => Ok (JBool b)
  | VInt n => Ok (JNum n)
  | VStr s => Ok (JStr s)
  | VErr _ => Ok (JObj [])
  | VUnsupported ty => Err (json_UnsupportedTypeError ty)
  | VSlice elems =>
    match sequence (map json_encode elems) with
    | Ok l => Ok (JArr l)
    | Err e => Err e
    end
  | VMap m =>
    match sequence (map withKey (sortKeys (map_to_list (json_encode <$> m)))) with
    | Ok l => Ok (JObj l)
    | Err e => Err e
    end
  end.

Definition json_Marshal (v : value) : result (list ascii) :=
  match json_encode v with
  | Ok j => Ok (json_render j)
  | Err e => Err e
  end.

(** * time

    A [time.Time] by what its methods [Date], [Clock], [Nanosecond] and
    [Zone] return; [zoneOffset] is in seconds east of UTC. *)
Record Time := {
  year : Z;
  month : Z;
  day : Z;
  hour : Z;
  minute : Z;
  second : Z;
  nanosecond : Z;
  zoneOffset : Z;
}.

(** [appendInt(b, x, width)] of package time: zero-padded decimal. *)
Definition appendInt (x : Z) (width : nat) : list ascii :=
  let digits := strconv_FormatUint (Z.to_N (Z.abs x)) in
  (if (x <? 0)%Z then ["-"%char] else [])
  ++ replicate (width - List.length digits) "0"%char ++ digits.

Fixpoint trimZeros (rev_digits : list ascii) : list ascii :=
  match rev_digits with
  | c :: t => if Ascii.eqb c "0" then trimZeros t else rev_digits
  | [] => []
  end.

(** [appendNano] for the layout element [.999999999]: nothing for a whole
    second, otherwise the nine digits without their trailing zeros. *)
Definition appendNano (nanosec : Z) : list ascii :=
  if (nanosec =? 0)%Z then []
  else "."%char :: rev (trimZeros (rev (appendInt nanosec 9))).

Definition appendZone (offset : Z) : list ascii :=
  if (offset =? 0)%Z then ["Z"%char]
  else
    let zone := Z.quot offset 60 in
    let sign := if (zone <? 0)%Z then "-"%char else "+"%char in
    let zone := Z.abs zone in
    sign :: appendInt (Z.quot zone 60) 2 ++ ":"%char :: appendInt (Z.rem zone 60) 2.

(** [t.Format(time.RFC3339Nano)], layout
    [2006-01-02T15:04:05.999999999Z07:00]. *)
Definition time_Format_RFC3339Nano (t : Time) : string :=
  stringOf
    (appendInt (year t) 4 ++ "-"%char :: appendInt (month t) 2
     ++ "-"%char :: appendInt (day t) 2
     ++ "T"%char :: appendInt (hour t) 2
     ++ ":"%char :: appendInt (minute t) 2
     ++ ":"%char :: appendInt (second t) 2
     ++ appendNano (nanosecond t) ++ appendZone (zoneOffset t)).

(** * logrus

    [logrus.Level] is a [uint32]; the package declares its levels with
    [iota], from [PanicLevel] on. *)
Definition Level := N.

Definition PanicLevel : Level := 0.

Definition FatalLevel : Level := 1.

Definition ErrorLevel : Level := 2.

Definition WarnLevel : Level := 3.

Definition InfoLevel : Level := 4.

Definition DebugLevel : Level := 5.

Definition TraceLevel : Level := 6.

(** [logrus.Entry], the fields [Format] reads. *)
Record Entry := {
  Data : gmap string value;
  Time_ : Time;
  Level_ : Level;
  Message : string;
}.

(** * runtime

    The goroutine's call stack while [Format] runs, innermost frame first:
    index 0 is [Format] itself, index 1 is its caller.  [funcs] is the
    symbol table behind [runtime.FuncForPC]. *)
Record Frame := {
  frame_pc : N;
  frame_file : string;
  frame_line : Z;
}.

Record Runtime := {
  callstack : list Frame;
  funcs : gmap N string;
}.

(** [runtime.Callers(skip, pc)] called from [getSkipLevel], itself called
    from [Format]: [skip] counts [Callers] (0), [getSkipLevel] (1) and
    [Format] (2), so recording starts at index [skip - 2] of [callstack].
    The slots of [pc] the stack does not reach keep their value. *)
Definition runtime_Callers (rt : Runtime) (skip : nat) (pc : list N) : list N :=
  let pcs := take (List.length pc) (frame_pc <$> drop (skip - 2) (callstack rt)) in
  pcs ++ drop (List.length pcs) pc.

(** [runtime.Caller(skip)] called from [Format]: 0 is [Format]. *)
Definition runtime_Caller (rt : Runtime) (skip : nat) : option Frame :=
  callstack rt !! skip.

(** [runtime.FuncForPC(pc)], [None] for the nil [*Func]. *)
Definition runtime_FuncForPC (rt : Runtime) (pc : N) : option string :=
  funcs rt !! pc.

(** The method [Name] of a [Func] pointer, the empty string on nil. *)
Definition Func_Name (f : option string) : string := default "" f.

Definition strings_HasPrefix (s prefix : string) : bool := String.prefix prefix s.

(** * Package logrusgce *)

Definition severity := string.

Definition logrusToCallerSkip : nat := 5.

Definition severityDEBUG : severity := "DEBUG".

Definition severityINFO : severity := "INFO".

Definition severityNOTICE : severity := "NOTICE".

Definition severityWARNING : severity := "WARNING".

Definition severityERROR : severity := "ERROR".

Definition severityCRITICAL : severity := "CRITICAL".

Definition severityALERT : severity := "ALERT".

Definition severityEMERGENCY : severity := "EMERGENCY".

Definition levelsLogrusToGCE : gmap Level severity :=
  list_to_map [
    (DebugLevel, severityDEBUG);
    (InfoLevel, severityINFO);
    (WarnLevel, severityWARNING);
    (ErrorLevel, severityERROR);
    (FatalLevel, severityCRITICAL);
    (PanicLevel, severityALERT)
  ].

(** Indexing a Go map: the zero value for a missing key. *)
Definition severityOf (level : Level) : severity :=
  default "" (levelsLogrusToGCE !! level).

(** The package-level variables that change: the skip cache.  [walks]
    is not program state: it counts the calls of [runtime.Callers], so
    that a lookup served from the cache can be told from one that walked
    the stack. *)
Record World := {
  stackSkips : gmap Level nat;
  walks : nat;
}.

Definition initWorld : World := {| stackSkips := ∅; walks := 0 |}.

(** The loop of [getSkipLevel] over the captured program counters, from
    index [i] on. *)
Fixpoint scanCallers (rt : Runtime) (pcs : list N) (i : nat) : option nat :=
  match pcs with
  | [] => None
  | pc :: rest =>
    let f := runtime_FuncForPC rt pc in
    if strings_HasPrefix (Func_Name f) "github.com/sirupsen/logrus"
    then scanCallers rt rest (S i)
    else Some (i + 1)%nat
  end.

(** The part of [getSkipLevel] under the read lock. *)
Definition readLocked (level : Level) (w : World) : option nat :=
  stackSkips w !! level.

(** The part of [getSkipLevel] under the write lock. *)
Definition writeLocked (level : Level) (rt : Runtime) (w : World)
  : result nat * World :=
  match stackSkips w !! level with
  | Some skip => (Ok skip, w)
  | None =>
    let stackSkipsCallers := runtime_Callers rt 3 (replicate 20 0) in
    let w := {| stackSkips := stackSkips w; walks := S (walks w) |} in
    match scanCallers rt stackSkipsCallers 0 with
    | Some skip =>
      (Ok skip, {| stackSkips := <[level := skip]> (stackSkips w);
                   walks := walks w |})
    | None => (Err ErrSkipNotFound, w)
    end
  end.

Definition getSkipLevel (level : Level) (rt : Runtime) (w : World)
  : result nat * World :=
  match readLocked level w with
  | Some skip => (Ok skip, w)
  | None => writeLocked level rt w
  end.

Record GCEFormatter := {
  withSourceInfo : bool;
}.

Definition NewGCEFormatter (withSourceInfo : bool) : GCEFormatter :=
  {| withSourceInfo := withSourceInfo |}.

(** The type switch of the copy loop. *)
Definition coerce (v : value) : value :=
  match v with
  | VErr msg => VStr msg
  | _ => v
  end.

(** The copy loop of [Format], over the entries of [entry.Data]. *)
Definition copyFields (fields : gmap string value) : gmap string value :=
  map_fold (λ k v data, <[k := coerce v]> data) ∅ fields.

Definition sourceLocationKey : string := "logging.googleapis.com/sourceLocation".

Definition sourceLocationValue (rt : Runtime) (fr : Frame) : value :=
  let f := runtime_FuncForPC rt (frame_pc fr) in
  VMap (<["function" := VStr (Func_Name f)]>
        (<["line" := VInt (frame_line fr)]>
         (<["file" := VStr (frame_file fr)]> ∅))).

(** [Format] up to the call of [json.Marshal]: the map [data]. *)
Definition formatData (f : GCEFormatter) (entry : Entry) (rt : Runtime)
  (w : World) : result (gmap string value) * World :=
  let data := copyFields (Data entry) in
  let data := <["time" := VStr (time_Format_RFC3339Nano (Time_ entry))]> data in
  let data := <["severity" := VStr (severityOf (Level_ entry))]> data in
  let data := <["message" := VStr (Message entry)]> data in
  if withSourceInfo f then
    match getSkipLevel (Level_ entry) rt w with
    | (Err err, w) => (Err err, w)
    | (Ok skip, w) =>
      match runtime_Caller rt skip with
      | Some fr => (Ok (<[sourceLocationKey := sourceLocationValue rt fr]> data), w)
      | None => (Ok data, w)
      end
    end
  else (Ok data, w).

Definition Format (f : GCEFormatter) (entry : Entry) (rt : Runtime)
  (w : World) : result (list ascii) * World :=
  match formatData f entry rt w with
  | (Err err, w) => (Err err, w)
  | (Ok data, w) =>
    match json_Marshal (VMap data) with
    | Err err =>
      (Err (fmt_Errorf ("failed to marshal fields to JSON, " +:+ Error err)), w)
    | Ok serialized => (Ok (serialized ++ [newline]), w)
    end
  end.

(** * Goroutines calling [getSkipLevel]

    A goroutine is before the read-locked section, between the two
    sections (the read-locked lookup missed), or has returned.  Each
    locked section runs as one step; the steps of different goroutines
    interleave freely. *)
Inductive goroutine :=
  | GStart (level : Level) (rt : Runtime)
  | GWaiting (level : Level) (rt : Runtime)
  | GReturned (r : result nat).

Inductive gstep : World * goroutine → World * goroutine → Prop :=
  | gstep_hit level rt w skip :
      readLocked level w = Some skip →
      gstep (w, GStart level rt) (w, GReturned (Ok skip))
  | gstep_miss level rt w :
      readLocked level w = None →
      gstep (w, GStart level rt) (w, GWaiting level rt)
  | gstep_write level rt w r w' :
      writeLocked level rt w = (r, w') →
      gstep (w, GWaiting level rt) (w', GReturned r).

(** One step of a pool of goroutines: one of them moves. *)
Inductive step : World * list goroutine → World * list goroutine → Prop :=
  | step_at i w gs g w' g' :
      gs !! i = Some g →
      gstep (w, g) (w', g') →
      step (w, gs) (w', <[i := g']> gs).

(** * Decimal numbers: strconv against the decoder *)

Definition noDigitHead (s : list ascii) : Prop :=
  match s with
  | [] => True
  | c :: _ => isDigit c = false
  end.

(** * String literals: appendString against the decoder *)

Definition consChars (pre : list ascii)
  (r : option (list ascii * list ascii)) : option (list ascii * list ascii) :=
  match r with
  | Some (l, rest) => Some (pre ++ l, rest)
  | None => None
  end.

(** * Documents: json_render against the decoder *)

(** Every string of the document, member names included, is valid
    UTF-8. *)
Fixpoint json_utf8 (j : json) : bool :=
  match j with
  | JStr s => utf8_ValidString s
  | JArr elems => forallb json_utf8 elems
  | JObj members =>
    forallb (λ kv, let '(k, v) := kv in utf8_ValidString k && json_utf8 v)
            members
  | _ => true
  end.

Definition renderMember (kv : string * json) : list ascii :=
  let '(k, v) := kv in json_appendString k ++ ":"%char :: json_render v.

Definition roundtrips (j : json) : Prop :=
  ∀ f rest, (List.length (json_render j) <= f)%nat → noDigitHead rest →
    ∃ j', parseValue f (json_render j ++ rest) = Some (j', rest)
          ∧ (json_utf8 j = true → j' = j).

(** * The caller resolver *)

(** The test of the loop of [getSkipLevel] on one program counter. *)
Definition inLogrus (rt : Runtime) (pc : N) : bool :=
  strings_HasPrefix (Func_Name (runtime_FuncForPC rt pc))
    "github.com/sirupsen/logrus".

(** The window [getSkipLevel] captures. *)
Definition window (rt : Runtime) : list N :=
  runtime_Callers rt 3 (replicate 20 0).

(** The frame whose location [Format] attaches, if it attaches one. *)
Definition attachedFrame (f : GCEFormatter) (entry : Entry) (rt : Runtime)
  (w : World) : option Frame :=
  if withSourceInfo f then
    match getSkipLevel (Level_ entry) rt w with
    | (Ok skip, _) => runtime_Caller rt skip
    | (Err _, _) => None
    end
  else None.

(** The keys [Format] assigns after the copy loop. *)
Definition assignedKeys (f : GCEFormatter) (entry : Entry) (rt : Runtime)
  (w : World) : list string :=
  ["time"; "severity"; "message"]
  ++ match attachedFrame f entry rt w with
     | Some _ => [sourceLocationKey]
     | None => []
     end.

(** [out] is the line of the object with these members. *)
Definition lineOf (members : list (string * json)) (out : list ascii) : Prop :=
  out = json_render (JObj members) ++ [newline].

Definition reservedData (entry : Entry) : gmap string value :=
  <["message" := VStr (Message entry)]>
    (<["severity" := VStr (severityOf (Level_ entry))]>
      (<["time" := VStr (time_Format_RFC3339Nano (Time_ entry))]>
        (coerce <$> Data entry))).

(** * Sample runs *)

Definition sampleTime : Time :=
  {| year := 2024; month := 1; day := 2; hour := 15; minute := 4;
     second := 5; nanosecond := 6000; zoneOffset := 0 |}.

(** The name of a method with a pointer receiver. *)
Definition methodName (pkg recv name : string) : string :=
  pkg +:+ ".(" +:+ "*" +:+ recv +:+ ")." +:+ name.

Definition sampleFuncs : gmap N string :=
  list_to_map [
    (0x1000, methodName "github.com/marcelhuth/logrus-gce" "GCEFormatter" "Format");
    (0x2000, methodName "github.com/sirupsen/logrus" "Entry" "write");
    (0x2010, methodName "github.com/sirupsen/logrus" "Entry" "log");
    (0x2020, methodName "github.com/sirupsen/logrus" "Entry" "Log");
    (0x2030, methodName "github.com/sirupsen/logrus" "Entry" "Info");
    (0x3000, "main.main");
    (0x4000, "runtime.main");
    (0x4010, "runtime.goexit")
  ].

Definition frameFormat : Frame :=
  {| frame_pc := 0x1000; frame_file := "gceformatter.go"; frame_line := 119 |}.

Definition framesLogrus : list Frame :=
  [ {| frame_pc := 0x2000; frame_file := "entry.go"; frame_line := 289 |};
    {| frame_pc := 0x2010; frame_file := "entry.go"; frame_line := 252 |};
    {| frame_pc := 0x2020; frame_file := "entry.go"; frame_line := 304 |};
    {| frame_pc := 0x2030; frame_file := "entry.go"; frame_line := 321 |} ].

Definition framesMain : list Frame :=
  [ {| frame_pc := 0x3000; frame_file := "main.go"; frame_line := 12 |};
    {| frame_pc := 0x4000; frame_file := "proc.go"; frame_line := 283 |};
    {| frame_pc := 0x4010; frame_file := "asm_amd64.s"; frame_line := 1700 |} ].

(** [main] logs through an entry of the front-end. *)
Definition rtViaLogrus : Runtime :=
  {| callstack := frameFormat :: framesLogrus ++ framesMain;
     funcs := sampleFuncs |}.

(** [main] calls [Format] itself. *)
Definition rtDirect : Runtime :=
  {| callstack := frameFormat :: framesMain; funcs := sampleFuncs |}.

(** Twenty frames of the front-end above [Format]. *)
Definition rtDeep : Runtime :=
  {| callstack :=
       frameFormat :: concat (replicate 5 framesLogrus) ++ framesMain;
     funcs := sampleFuncs |}.

Definition sampleEntry (level : Level) (fields : gmap string value) : Entry :=
  {| Data := fields; Time_ := sampleTime; Level_ := level;
     Message := "disk full" |}.

(** The bytes of a line before its last byte. *)
Definition bodyOf (out : list ascii) : list ascii :=
  take (List.length out - 1) out.

(** The six severities the map holds. *)
Definition producible : list severity :=
  [severityDEBUG; severityINFO; severityWARNING; severityERROR;
   severityCRITICAL; severityALERT].

Definition mappedLevels : list Level :=
  [DebugLevel; InfoLevel; WarnLevel; ErrorLevel; FatalLevel; PanicLevel].

Definition sampleLine (sev : string) : list ascii :=
  bytesOf ("{" +:+ String quote "message" +:+ String quote ":"
    +:+ String quote "disk full" +:+ String quote ","
    +:+ String quote "severity" +:+ String quote ":"
    +:+ String quote sev +:+ String quote ","
    +:+ String quote "time" +:+ String quote ":"
    +:+ String quote "2024-01-02T15:04:05.000006Z" +:+ String quote "}"
    +:+ String newline "").

(** One call of an exported or internal function of the package that
    touches the skip cache, started in one world and ended in another. *)
Inductive call : World → World → Prop :=
  | call_getSkipLevel level rt w r w' :
      getSkipLevel level rt w = (r, w') → call w w'
  | call_Format f entry rt w r w' :
      Format f entry rt w = (r, w') → call w w'.

Definition worldInfo5 : World :=
  {| stackSkips := <[InfoLevel := 5%nat]> ∅; walks := 1 |}.

(** The document of a source location. *)
Definition sourceLocationJSON (rt : Runtime) (fr : Frame) : json :=
  JObj [("file", JStr (frame_file fr));
        ("function", JStr (Func_Name (runtime_FuncForPC rt (frame_pc fr))));
        ("line", JNum (frame_line fr))].

(** A record with a field under the key of the message. *)
Definition entryErrMessage : Entry :=
  sampleEntry InfoLevel {[ "message" := VErr "boom" ]}.

(** A record with a field under the key of the source location. *)
Definition entryOwnLocation : Entry :=
  sampleEntry InfoLevel {[ sourceLocationKey := VStr "here" ]}.

Definition sampleLineLocated : list ascii :=
  bytesOf ("{" +:+ String quote "logging.googleapis.com/sourceLocation"
    +:+ String quote ":{" +:+ String quote "file" +:+ String quote ":"
    +:+ String quote "main.go" +:+ String quote ","
    +:+ String quote "function" +:+ String quote ":"
    +:+ String quote "main.main" +:+ String quote ","
    +:+ String quote "line" +:+ String quote ":12},"
    +:+ String quote "message" +:+ String quote ":"
    +:+ String quote "disk full" +:+ String quote ","
    +:+ String quote "severity" +:+ String quote ":"
    +:+ String quote "INFO" +:+ String quote ","
    +:+ String quote "time" +:+ String quote ":"
    +:+ String quote "2024-01-02T15:04:05.000006Z" +:+ String quote "}"
    +:+ String newline "").

Definition sampleLineField (k v : string) : list ascii :=
  bytesOf ("{" +:+ String quote k +:+ String quote ":"
    +:+ String quote v +:+ String quote ","
    +:+ String quote "message" +:+ String quote ":"
    +:+ String quote "disk full" +:+ String quote ","
    +:+ String quote "severity" +:+ String quote ":"
    +:+ String quote "INFO" +:+ String quote ","
    +:+ String quote "time" +:+ String quote ":"
    +:+ String quote "2024-01-02T15:04:05.000006Z" +:+ String quote "}"
    +:+ String newline "").

(** A record with an error under a key of its own. *)
Definition entryErrField : Entry :=
  sampleEntry InfoLevel {[ "cause" := VErr "boom" ]}.

(** * Strings of ASCII bytes are valid UTF-8 *)




(** A record with a channel among its fields. *)
Definition entryChan : Entry :=
  sampleEntry InfoLevel {[ "done" := VUnsupported "chan int" ]}.

#[global] Instance keyLe_total {A} : Total (@keyLe A).
Proof. intros p q. unfold keyLe. apply String.leb_total. Qed.

(** * Concurrent lookups *)

(** The level a goroutine is looking up, while it has not returned. *)
Definition levelOf (g : goroutine) : option Level :=
  match g with
  | GStart level _ | GWaiting level _ => Some level
  | GReturned _ => None
  end.

(** Two goroutines logging at Info, one through the front-end and one
    from [main] itself. *)
Definition samplePool : list goroutine :=
  [GStart InfoLevel rtViaLogrus; GStart InfoLevel rtDirect].

Definition worldInfo1 : World :=
  {| stackSkips := <[InfoLevel := 1%nat]> ∅; walks := 1 |}.

(** * One record, one line *)

(** No byte of [l] is a control character. *)
Definition noControl (l : list ascii) : Prop := Forall (λ c, 0x20 <= bval c) l.

(** A record whose message holds a newline. *)
Definition entryTwoLines : Entry :=
  {| Data := ∅; Time_ := sampleTime; Level_ := InfoLevel;
     Message := String "a" (String newline (String "b" "")) |}.

(** * Properties *)

Lemma bval_digitChar d : d < 10 → bval (digitChar d) = 48 + d.
Proof.
  intros Hd. unfold bval, digitChar. apply N_ascii_embedding. lia.
Qed.

Lemma isDigit_digitChar d : d < 10 → isDigit (digitChar d) = true.
Proof.
  intros Hd. unfold isDigit. rewrite bval_digitChar by done.
  apply andb_true_iff. split; apply N.leb_le; lia.
Qed.

Lemma log2_div10 u : 10 <= u → N.log2 (u / 10) < N.log2 u.
Proof.
  intros Hu.
  assert (0 < u / 10) as Hpos.
  { apply N.div_str_pos. lia. }
  apply N.log2_lt_pow2; [done|].
  destruct (N.log2_spec u) as [Hlo Hhi]; [lia|].
  rewrite N.pow_succ_r' in Hhi.
  assert (u / 10 <= u / 2) as Hle.
  { apply N.div_le_compat_l. lia. }
  assert (u / 2 < 2 ^ N.log2 u); [|lia].
  apply N.Div0.div_lt_upper_bound. lia.
Qed.

Lemma log2_zero_small u : (N.to_nat (N.log2 u) <= 0)%nat → u < 2.
Proof.
  intros Hfuel. destruct (decide (u = 0)) as [->|Hne]; [lia|].
  destruct (N.log2_spec u) as [_ Hhi]; [lia|].
  assert (N.log2 u = 0) as H0 by lia.
  rewrite H0 in Hhi. simpl in Hhi. lia.
Qed.

Lemma formatBits_app fuel u acc :
  formatBits fuel u acc = formatBits fuel u [] ++ acc.
Proof.
  revert u acc. induction fuel as [|fuel IH]; intros u acc; simpl; [done|].
  destruct (u <? 10); [done|].
  rewrite IH, (IH _ [_]). by rewrite <- app_assoc.
Qed.

Lemma parseDigits_stop n s : noDigitHead s → parseDigits n s = (n, s).
Proof. destruct s as [|c t]; simpl; [done|]. by intros ->. Qed.

Lemma parseDigits_digit a d rest :
  d < 10 →
  parseDigits a (digitChar d :: rest) = parseDigits (a * 10 + d) rest.
Proof.
  intros Hd. cbn [parseDigits]. rewrite isDigit_digitChar, bval_digitChar by done.
  f_equal. lia.
Qed.

Lemma parseDigits_formatBits fuel u :
  (N.to_nat (N.log2 u) <= fuel)%nat →
  ∃ p, ∀ a rest,
    parseDigits a (formatBits fuel u rest) = parseDigits (a * p + u) rest.
Proof.
  revert u. induction fuel as [|fuel IH]; intros u Hfuel.
  - exists 10. intros a rest. cbn [formatBits].
    pose proof (log2_zero_small u Hfuel) as Hu.
    rewrite N.mod_small by lia. by rewrite parseDigits_digit by lia.
  - cbn [formatBits]. destruct (u <? 10) eqn:Hlt.
    + apply N.ltb_lt in Hlt. exists 10. intros a rest.
      rewrite N.mod_small by lia. by rewrite parseDigits_digit by lia.
    + apply N.ltb_ge in Hlt.
      destruct (IH (u / 10)) as [p Hp].
      { pose proof (log2_div10 u Hlt). lia. }
      exists (p * 10). intros a rest.
      rewrite Hp, parseDigits_digit by (apply N.mod_lt; lia).
      f_equal. pose proof (N.div_mod u 10). lia.
Qed.

Lemma formatBits_head fuel u rest :
  (N.to_nat (N.log2 u) <= fuel)%nat →
  ∃ c t, formatBits fuel u rest = c :: t ∧ isDigit c = true
         ∧ (0 < u → c ≠ "0"%char).
Proof.
  assert (∀ d, d < 10 → 0 < d → digitChar d ≠ "0"%char) as Hnz.
  { intros d Hd Hpos Heq. apply (f_equal bval) in Heq.
    rewrite bval_digitChar in Heq by done.
    change (bval "0") with 48 in Heq. lia. }
  revert u rest. induction fuel as [|fuel IH]; intros u rest Hfuel.
  - cbn [formatBits]. pose proof (log2_zero_small u Hfuel) as Hu.
    rewrite N.mod_small by lia.
    eexists _, _. split; [done|]. split; [apply isDigit_digitChar; lia|].
    intros. apply Hnz; lia.
  - cbn [formatBits]. destruct (u <? 10) eqn:Hlt.
    + apply N.ltb_lt in Hlt. rewrite N.mod_small by lia.
      eexists _, _. split; [done|]. split; [apply isDigit_digitChar; lia|].
      intros. apply Hnz; lia.
    + apply N.ltb_ge in Hlt.
      destruct (IH (u / 10) (digitChar (u mod 10) :: rest)) as (c & t & -> & Hc & Hne).
      { pose proof (log2_div10 u Hlt). lia. }
      exists c, t. split; [done|]. split; [done|].
      intros _. apply Hne. apply N.div_str_pos. lia.
Qed.

Lemma parseNat_FormatUint u rest :
  noDigitHead rest →
  parseNat (strconv_FormatUint u ++ rest) = Some (u, rest).
Proof.
  intros Hrest. unfold strconv_FormatUint. rewrite <- formatBits_app.
  destruct (parseDigits_formatBits (N.to_nat (N.log2 u)) u) as [p Hp]; [done|].
  destruct (formatBits_head (N.to_nat (N.log2 u)) u rest)
    as (c & t & Heq & Hc & Hne); [done|].
  specialize (Hp 0 rest). rewrite Heq in Hp. unfold parseNat. rewrite Heq.
  assert (parseDigits 0 (c :: t) = parseDigits (bval c - 48) t) as H1.
  { cbn [parseDigits]. rewrite Hc. f_equal. }
  destruct (Ascii.eqb_spec c "0") as [->|Hc0].
  - destruct (decide (u = 0)) as [->|Hu]; [|exfalso; apply Hne; [lia|done]].
    f_equal. f_equal.
    assert (formatBits (N.to_nat (N.log2 0)) 0 rest = "0"%char :: rest) as H0
      by done.
    rewrite H0 in Heq. by inversion Heq.
  - rewrite Hc, <- H1, Hp, N.mul_0_l, N.add_0_l.
    by rewrite parseDigits_stop by done.
Qed.

Lemma FormatUint_head u :
  ∃ c t, strconv_FormatUint u = c :: t ∧ isDigit c = true.
Proof.
  destruct (formatBits_head (N.to_nat (N.log2 u)) u [])
    as (c & t & Heq & Hc & _); [done|]. by exists c, t.
Qed.

Lemma isDigit_not_minus c : isDigit c = true → Ascii.eqb c "-" = false.
Proof.
  intros Hc. destruct (Ascii.eqb_spec c "-") as [->|]; [|done].
  by vm_compute in Hc.
Qed.

(** What [strconv.AppendInt] writes is read back by the decoder. *)
Lemma parseNumber_FormatInt i rest :
  noDigitHead rest →
  parseNumber (strconv_FormatInt i ++ rest) = Some (i, rest).
Proof.
  intros Hrest. unfold strconv_FormatInt.
  destruct (i <? 0)%Z eqn:Hneg.
  - apply Z.ltb_lt in Hneg. simpl.
    rewrite parseNat_FormatUint by done. f_equal. f_equal. lia.
  - apply Z.ltb_ge in Hneg.
    destruct (FormatUint_head (Z.to_N i)) as (c & t & Heq & Hc).
    pose proof (parseNat_FormatUint (Z.to_N i) rest Hrest) as Hp.
    rewrite Heq in Hp |- *. rewrite <- app_comm_cons in Hp |- *.
    unfold parseNumber. rewrite (isDigit_not_minus c Hc), Hp.
    f_equal. f_equal. lia.
Qed.

Lemma consChars_app p q r : consChars (p ++ q) r = consChars p (consChars q r).
Proof. destruct r as [[l rest]|]; simpl; [|done]. by rewrite app_assoc. Qed.

Lemma bval_inj c d : bval c = bval d → c = d.
Proof.
  unfold bval. intros H.
  rewrite <- (ascii_N_embedding c), <- (ascii_N_embedding d). by rewrite H.
Qed.

Lemma bval_lt c : bval c < 256.
Proof. apply N_ascii_bounded. Qed.

(** An ASCII byte, escaped or not by the encoder, is read back as
    itself. *)
Lemma parseChars_escapeByte c X :
  bval c < 0x80 →
  parseChars (json_escapeByte c ++ X) = consChars [c] (parseChars X).
Proof.
  intros Hc.
  destruct c as [[] [] [] [] [] [] [] []];
    first [reflexivity | by vm_compute in Hc].
Qed.

(** A byte outside ASCII is read back as itself. *)
Lemma parseChars_high c X :
  0x80 <= bval c →
  parseChars (c :: X) = consChars [c] (parseChars X).
Proof.
  intros Hc.
  destruct c as [[] [] [] [] [] [] [] []];
    first [reflexivity | by vm_compute in Hc].
Qed.

Lemma parseChars_highs pre X :
  Forall (λ c, 0x80 <= bval c) pre →
  parseChars (pre ++ X) = consChars pre (parseChars X).
Proof.
  induction 1 as [|c pre Hc _ IH]; simpl app.
  - by destruct (parseChars X) as [[??]|].
  - rewrite parseChars_high, IH by done.
    by rewrite <- (consChars_app [c] pre).
Qed.

(** ** unicode/utf8 *)

Lemma lor_mul_pow2_add a n b :
  b < 2 ^ n → N.lor (a * 2 ^ n) b = a * 2 ^ n + b.
Proof.
  intros Hb.
  rewrite <- N.lxor_lor, <- N.add_nocarry_lxor; [done| |].
  all: apply N.bits_inj; intros m; rewrite N.land_spec, N.bits_0.
  all: destruct (N.lt_ge_cases m n) as [Hm|Hm];
    [by rewrite N.mul_pow2_bits_low|].
  all: destruct (decide (b = 0)) as [->|Hb0];
    [by rewrite N.bits_0, andb_false_r|].
  all: rewrite (N.bits_above_log2 b m), andb_false_r; [done|].
  all: apply N.lt_le_trans with n; [|done].
  all: apply N.log2_lt_pow2; [lia|done].
Qed.

Lemma lor_shiftl_add a n b :
  b < 2 ^ n → N.lor (N.shiftl a n) b = a * 2 ^ n + b.
Proof. intros Hb. by rewrite N.shiftl_mul_pow2, lor_mul_pow2_add. Qed.

Lemma land_3F x : N.land x 0x3F = x mod 64.
Proof. change 0x3F with (N.ones 6). by rewrite N.land_ones. Qed.

Lemma land_1F x : N.land x 0x1F = x mod 32.
Proof. change 0x1F with (N.ones 5). by rewrite N.land_ones. Qed.

Lemma land_0F x : N.land x 0x0F = x mod 16.
Proof. change 0x0F with (N.ones 4). by rewrite N.land_ones. Qed.

Lemma land_07 x : N.land x 0x07 = x mod 8.
Proof. change 0x07 with (N.ones 3). by rewrite N.land_ones. Qed.

Lemma rune2 s0 s1 :
  N.lor (N.shiftl (N.land s0 0x1F) 6) (N.land s1 0x3F)
  = (s0 mod 32) * 64 + s1 mod 64.
Proof.
  rewrite land_1F, land_3F, lor_shiftl_add; [done|].
  change (2 ^ 6) with 64. apply N.mod_lt. done.
Qed.

Lemma rune3 s0 s1 s2 :
  N.lor (N.lor (N.shiftl (N.land s0 0x0F) 12) (N.shiftl (N.land s1 0x3F) 6))
        (N.land s2 0x3F)
  = (s0 mod 16) * 4096 + (s1 mod 64) * 64 + s2 mod 64.
Proof.
  rewrite land_0F, !land_3F.
  pose proof (N.mod_lt s1 64). pose proof (N.mod_lt s2 64).
  rewrite (N.shiftl_mul_pow2 (s1 mod 64)).
  rewrite (lor_shiftl_add _ 12) by (change (2 ^ 12) with 4096;
    change (2 ^ 6) with 64; lia).
  replace ((s0 mod 16) * 2 ^ 12 + (s1 mod 64) * 2 ^ 6)
    with (((s0 mod 16) * 64 + s1 mod 64) * 2 ^ 6)
    by (change (2 ^ 12) with 4096; change (2 ^ 6) with 64; lia).
  rewrite lor_mul_pow2_add by (change (2 ^ 6) with 64; lia).
  change (2 ^ 6) with 64. lia.
Qed.

Lemma rune4 s0 s1 s2 s3 :
  N.lor (N.lor (N.lor (N.shiftl (N.land s0 0x07) 18)
                      (N.shiftl (N.land s1 0x3F) 12))
               (N.shiftl (N.land s2 0x3F) 6))
        (N.land s3 0x3F)
  = (s0 mod 8) * 262144 + (s1 mod 64) * 4096 + (s2 mod 64) * 64 + s3 mod 64.
Proof.
  rewrite land_07, !land_3F.
  pose proof (N.mod_lt s1 64). pose proof (N.mod_lt s2 64).
  pose proof (N.mod_lt s3 64).
  rewrite (N.shiftl_mul_pow2 (s1 mod 64)), (N.shiftl_mul_pow2 (s2 mod 64)).
  rewrite (lor_shiftl_add _ 18) by (change (2 ^ 18) with 262144;
    change (2 ^ 12) with 4096; lia).
  replace ((s0 mod 8) * 2 ^ 18 + (s1 mod 64) * 2 ^ 12)
    with (((s0 mod 8) * 64 + s1 mod 64) * 2 ^ 12)
    by (change (2 ^ 18) with 262144; change (2 ^ 12) with 4096; lia).
  rewrite lor_mul_pow2_add by (change (2 ^ 12) with 4096;
    change (2 ^ 6) with 64; lia).
  replace (((s0 mod 8) * 64 + s1 mod 64) * 2 ^ 12 + (s2 mod 64) * 2 ^ 6)
    with ((((s0 mod 8) * 64 + s1 mod 64) * 64 + s2 mod 64) * 2 ^ 6)
    by (change (2 ^ 12) with 4096; change (2 ^ 6) with 64; lia).
  rewrite lor_mul_pow2_add by (change (2 ^ 6) with 64; lia).
  change (2 ^ 6) with 64. lia.
Qed.

Lemma mod64_cont x : 128 <= x <= 191 → x mod 64 = x - 128.
Proof. intros. symmetry. apply N.mod_unique with 2; lia. Qed.

Lemma mod32_lead x : 192 <= x <= 223 → x mod 32 = x - 192.
Proof. intros. symmetry. apply N.mod_unique with 6; lia. Qed.

Lemma mod16_lead x : 224 <= x <= 239 → x mod 16 = x - 224.
Proof. intros. symmetry. apply N.mod_unique with 14; lia. Qed.

Lemma mod8_lead x : 240 <= x <= 247 → x mod 8 = x - 240.
Proof. intros. symmetry. apply N.mod_unique with 30; lia. Qed.

Lemma utf8_first_cases b :
  match utf8_first b with
  | FirstASCII => b < 0x80
  | FirstInvalid => True
  | FirstLead sz lo hi =>
    0x80 <= lo ∧ hi <= 0xBF ∧
    ((sz = 2%nat ∧ 0xC2 <= b <= 0xDF)
     ∨ (sz = 3%nat ∧ 0xE0 <= b <= 0xEF)
     ∨ (sz = 4%nat ∧ 0xF0 <= b <= 0xF4 ∧ (b = 0xF0 → lo = 0x90)))
  end.
Proof.
  unfold utf8_first.
  repeat match goal with
  | |- context [if ?x <? ?y then _ else _] =>
    destruct (N.ltb_spec x y)
  | |- context [if ?x =? ?y then _ else _] =>
    destruct (N.eqb_spec x y)
  end; try done; (split; [lia|]); (split; [lia|]); lia.
Qed.

Lemma decode_multibyte c t r size :
  0x80 <= bval c →
  utf8_DecodeRuneInString (c :: t) = (r, size) →
  (r =? RuneError) && (size =? 1)%nat = false →
  (2 <= size <= List.length (c :: t))%nat
  ∧ Forall (λ c, 0x80 <= bval c) (take size (c :: t))
  ∧ (r = 0x2028 → take size (c :: t) = ["226"; "128"; "168"]%char)
  ∧ (r = 0x2029 → take size (c :: t) = ["226"; "128"; "169"]%char).
Proof.
  intros Hc Hd Hv. unfold utf8_DecodeRuneInString, byteAt in Hd.
  cbn [nth] in Hd.
  pose proof (utf8_first_cases (bval c)) as Hf.
  destruct (utf8_first (bval c)) as [| |sz lo hi].
  { lia. }
  { inversion Hd; subst. done. }
  destruct Hf as (Hlo & Hhi & Hsz).
  destruct (Nat.ltb_spec (List.length (c :: t)) sz) as [|Hlen];
    [inversion Hd; subst; done|].
  destruct t as [|c1 t1]; [simpl in Hlen; lia|]. cbn [nth] in Hd.
  destruct (N.ltb_spec (bval c1) lo);
    [cbn [orb] in Hd; inversion Hd; subst; done|].
  destruct (N.ltb_spec hi (bval c1));
    [cbn [orb] in Hd; inversion Hd; subst; done|].
  cbn [orb] in Hd.
  destruct Hsz as [(-> & Hb)|[(-> & Hb)|(-> & Hb & Hf0)]].
  - change (2 <=? 2)%nat with true in Hd. cbv iota in Hd.
    rewrite rune2 in Hd. inversion Hd; subst. clear Hd Hv.
    split; [simpl; lia|]. split; [repeat constructor; lia|].
    rewrite mod32_lead, mod64_cont by lia.
    split; intros; lia.
  - destruct t1 as [|c2 t2]; [simpl in Hlen; lia|]. cbn [nth] in Hd.
    change (3 <=? 2)%nat with false in Hd. cbv iota in Hd.
    unfold isCont in Hd.
    destruct (N.leb_spec 0x80 (bval c2));
      [|cbn [andb negb] in Hd; inversion Hd; subst; done].
    destruct (N.leb_spec (bval c2) 0xBF);
      [|cbn [andb negb] in Hd; inversion Hd; subst; done].
    cbn [andb negb] in Hd.
    change (3 <=? 3)%nat with true in Hd. cbv iota in Hd.
    rewrite rune3 in Hd. inversion Hd; subst. clear Hd Hv.
    split; [simpl; lia|]. split; [repeat constructor; lia|].
    rewrite mod16_lead, !mod64_cont by lia.
    split; intros Hr; cbn [take firstn]; repeat f_equal; apply bval_inj;
      match goal with |- _ = bval ?x => change (bval x) with
        ltac:(let v := eval vm_compute in (bval x) in exact v) end; lia.
  - destruct t1 as [|c2 t2]; [simpl in Hlen; lia|].
    destruct t2 as [|c3 t3]; [simpl in Hlen; lia|]. cbn [nth] in Hd.
    change (4 <=? 2)%nat with false in Hd. cbv iota in Hd.
    unfold isCont in Hd.
    destruct (N.leb_spec 0x80 (bval c2));
      [|cbn [andb negb] in Hd; inversion Hd; subst; done].
    destruct (N.leb_spec (bval c2) 0xBF);
      [|cbn [andb negb] in Hd; inversion Hd; subst; done].
    cbn [andb negb] in Hd.
    change (4 <=? 3)%nat with false in Hd. cbv iota in Hd.
    destruct (N.leb_spec 0x80 (bval c3));
      [|cbn [andb negb] in Hd; inversion Hd; subst; done].
    destruct (N.leb_spec (bval c3) 0xBF);
      [|cbn [andb negb] in Hd; inversion Hd; subst; done].
    cbn [andb negb] in Hd.
    rewrite rune4 in Hd. inversion Hd; subst. clear Hd Hv.
    split; [simpl; lia|]. split; [repeat constructor; lia|].
    rewrite mod8_lead, !mod64_cont by lia.
    split; intros; exfalso; lia.
Qed.

Lemma decode_ascii c t :
  bval c < 0x80 → utf8_DecodeRuneInString (c :: t) = (bval c, 1%nat).
Proof.
  intros Hc. unfold utf8_DecodeRuneInString, byteAt. cbn [nth].
  unfold utf8_first. destruct (N.ltb_spec (bval c) 0x80); [done|lia].
Qed.

Lemma parseChars_ufffd Y :
  parseChars (backslash :: bytesOf "ufffd" ++ Y)
  = consChars ["239"; "191"; "189"]%char (parseChars Y).
Proof. reflexivity. Qed.

Lemma parseChars_u2028 Y :
  parseChars (backslash :: bytesOf "u202" ++ hexDigit (N.land 0x2028 0xF) :: Y)
  = consChars ["226"; "128"; "168"]%char (parseChars Y).
Proof. reflexivity. Qed.

Lemma parseChars_u2029 Y :
  parseChars (backslash :: bytesOf "u202" ++ hexDigit (N.land 0x2029 0xF) :: Y)
  = consChars ["226"; "128"; "169"]%char (parseChars Y).
Proof. reflexivity. Qed.

(** The decoder reads every string literal the encoder writes, and reads
    back the very bytes of a valid UTF-8 string. *)
Lemma parseChars_appendString_loop fuel s X :
  ∃ l, parseChars (json_appendString_loop fuel s ++ quote :: X) = Some (l, X)
       ∧ ((List.length s <= fuel)%nat → utf8_valid_loop fuel s = true → l = s).
Proof.
  revert s. induction fuel as [|fuel IH]; intros s.
  { exists []. split; [by destruct s|]. destruct s; [done|simpl; lia]. }
  destruct s as [|c t].
  { exists []. by split. }
  cbn [json_appendString_loop utf8_valid_loop].
  destruct (N.ltb_spec (bval c) 0x80) as [Hc|Hc].
  - destruct (IH t) as (l & Hl & Hval).
    exists (c :: l). rewrite <- app_assoc, parseChars_escapeByte, Hl by done.
    split; [done|]. intros Hlen. rewrite decode_ascii by done.
    destruct (N.eqb_spec (bval c) RuneError) as [Heq|_].
    { unfold RuneError in Heq. lia. }
    cbn [andb drop]. intros Hv. f_equal. apply Hval; [simpl in Hlen; lia|done].
  - destruct (utf8_DecodeRuneInString (c :: t)) as [r size] eqn:Hd.
    destruct ((r =? RuneError) && (size =? 1)%nat) eqn:Hv.
    { destruct (IH t) as (l & Hl & _). eexists.
      rewrite <- app_comm_cons, <- app_assoc, parseChars_ufffd, Hl.
      split; [done|]. done. }
    destruct (decode_multibyte c t r size Hc Hd Hv)
      as (Hsize & Hhigh & H28 & H29).
    destruct (IH (drop size (c :: t))) as (l & Hl & Hval).
    exists (take size (c :: t) ++ l). split.
    + destruct (N.eqb_spec r 0x2028) as [->|_]; [|
        destruct (N.eqb_spec r 0x2029) as [->|_]]; cbn [orb].
      * rewrite <- app_comm_cons, <- app_assoc, <- app_comm_cons.
        by rewrite parseChars_u2028, Hl, H28.
      * rewrite <- app_comm_cons, <- app_assoc, <- app_comm_cons.
        by rewrite parseChars_u2029, Hl, H29.
      * by rewrite <- app_assoc, parseChars_highs, Hl.
    + intros Hlen Hvalid. rewrite Hval; [apply take_drop| |done].
      rewrite length_drop. simpl in Hlen |- *. lia.
Qed.

Lemma length_bytesOf s : List.length (bytesOf s) = String.length s.
Proof. induction s as [|c s IH]; simpl; [done|]. by rewrite IH. Qed.

Lemma parseString_appendString s X :
  ∃ s', parseString (json_appendString s ++ X) = Some (s', X)
        ∧ (utf8_ValidString s = true → s' = s).
Proof.
  unfold json_appendString, utf8_ValidString.
  destruct (parseChars_appendString_loop (String.length s) (bytesOf s) X)
    as (l & Hl & Hval).
  exists (stringOf l). split.
  - rewrite <- app_comm_cons, <- app_assoc. simpl. by rewrite Hl.
  - intros Hv. rewrite Hval; [|by rewrite length_bytesOf|done].
    apply string_of_list_ascii_of_string.
Qed.

Lemma json_ind' (P : json → Prop) :
  P JNull →
  (∀ b, P (JBool b)) →
  (∀ n, P (JNum n)) →
  (∀ s, P (JStr s)) →
  (∀ l, Forall P l → P (JArr l)) →
  (∀ l, Forall (λ kv, P kv.2) l → P (JObj l)) →
  ∀ j, P j.
Proof.
  intros HNull HBool HNum HStr HArr HObj. fix IH 1.
  intros [|b|n|s|l|l]; [done|done|done|done| |].
  - apply HArr. induction l as [|j l IHl]; constructor; [apply IH|done].
  - apply HObj. induction l as [|[k j] l IHl]; constructor; [apply IH|done].
Qed.

Lemma expect_ok lit j rest :
  expect lit j (bytesOf lit ++ rest) = Some (j, rest).
Proof.
  unfold expect. rewrite take_app_length, drop_app_length.
  by rewrite decide_True.
Qed.

Lemma isDigit_head_dispatch c :
  isDigit c = true ∨ c = "-"%char →
  Ascii.eqb c "n" = false ∧ Ascii.eqb c "t" = false ∧ Ascii.eqb c "f" = false
  ∧ Ascii.eqb c quote = false ∧ Ascii.eqb c "[" = false
  ∧ Ascii.eqb c "{" = false.
Proof.
  intros Hc. repeat split.
  all: match goal with |- Ascii.eqb ?c ?x = false =>
    destruct (Ascii.eqb_spec c x) as [->|]; [|done] end.
  all: by destruct Hc as [Hc|Hc]; vm_compute in Hc.
Qed.

Lemma FormatInt_head i :
  ∃ c t, strconv_FormatInt i = c :: t ∧ (isDigit c = true ∨ c = "-"%char).
Proof.
  unfold strconv_FormatInt. destruct (i <? 0)%Z.
  - eexists _, _. split; [done|]. by right.
  - destruct (FormatUint_head (Z.to_N i)) as (c & t & -> & Hc).
    exists c, t. split; [done|]. by left.
Qed.

Lemma parseValue_num f i rest :
  noDigitHead rest →
  parseValue (S f) (strconv_FormatInt i ++ rest) = Some (JNum i, rest).
Proof.
  intros Hrest. pose proof (parseNumber_FormatInt i rest Hrest) as Hp.
  destruct (FormatInt_head i) as (c & t & Heq & Hc).
  rewrite Heq in Hp |- *. rewrite <- app_comm_cons in Hp |- *.
  destruct (isDigit_head_dispatch c Hc) as (H1 & H2 & H3 & H4 & H5 & H6).
  cbn [parseValue]. by rewrite H1, H2, H3, H4, H5, H6, Hp.
Qed.

Lemma parseValue_str f s rest :
  ∃ s', parseValue (S f) (json_appendString s ++ rest) = Some (JStr s', rest)
        ∧ (utf8_ValidString s = true → s' = s).
Proof.
  destruct (parseString_appendString s rest) as (s' & Hs & Hv).
  exists s'. split; [|done].
  unfold json_appendString in Hs |- *. rewrite <- app_comm_cons in Hs |- *.
  cbn [parseValue].
  change (Ascii.eqb quote "n") with false.
  change (Ascii.eqb quote "t") with false.
  change (Ascii.eqb quote "f") with false.
  change (Ascii.eqb quote quote) with true. cbv iota.
  by rewrite Hs.
Qed.

Lemma parseValue_null f rest :
  parseValue (S f) (bytesOf "null" ++ rest) = Some (JNull, rest).
Proof. apply (expect_ok "null"). Qed.

Lemma parseValue_true f rest :
  parseValue (S f) (bytesOf "true" ++ rest) = Some (JBool true, rest).
Proof. apply (expect_ok "true"). Qed.

Lemma parseValue_false f rest :
  parseValue (S f) (bytesOf "false" ++ rest) = Some (JBool false, rest).
Proof. apply (expect_ok "false"). Qed.

(** No document starts with a closing bracket. *)
Lemma json_render_head j :
  ∃ c t, json_render j = c :: t ∧ Ascii.eqb c "]" = false.
Proof.
  destruct j as [|[]|n|s|l|l]; try (by eexists _, _).
  destruct (FormatInt_head n) as (c & t & Heq & Hc).
  exists c, t. split; [done|].
  destruct (Ascii.eqb_spec c "]") as [->|]; [|done].
  by destruct Hc as [Hc|Hc]; vm_compute in Hc.
Qed.

Lemma parseElems_render l :
  Forall roundtrips l → l ≠ [] →
  ∀ f rest,
    (List.length (joinWith "," (map json_render l)) + 1 <= f)%nat →
    ∃ l', parseElems f (joinWith "," (map json_render l) ++ "]"%char :: rest)
          = Some (l', rest)
          ∧ (forallb json_utf8 l = true → l' = l).
Proof.
  induction 1 as [|v l Hv Hl IH]; [done|]. intros _ f rest Hf.
  destruct f as [|f]; [lia|]. destruct l as [|v2 l].
  - cbn [map joinWith] in Hf |- *.
    destruct (Hv f ("]"%char :: rest)) as (v' & Hp & Hval); [lia|done|].
    exists [v']. cbn [parseElems]. rewrite Hp.
    split; [done|]. cbn [forallb]. rewrite andb_true_r.
    intros Hu. by rewrite Hval.
  - change (joinWith "," (map json_render (v :: v2 :: l)))
      with (json_render v ++ ","%char :: joinWith "," (map json_render (v2 :: l)))
      in Hf |- *.
    rewrite length_app in Hf. cbn [List.length] in Hf.
    rewrite <- app_assoc, <- app_comm_cons.
    destruct (Hv f (","%char ::
      joinWith "," (map json_render (v2 :: l)) ++ "]"%char :: rest))
      as (v' & Hp & Hval); [lia|done|].
    destruct (IH ltac:(done) f rest) as (l' & Hpl & Hvall); [lia|].
    exists (v' :: l'). cbn [parseElems]. rewrite Hp.
    change (Ascii.eqb "," ",") with true. cbv iota. rewrite Hpl.
    split; [done|]. cbn [forallb]. intros [Hu1 Hu2]%andb_true_iff.
    by rewrite Hval, Hvall.
Qed.

Lemma parseMembers_render l :
  Forall (λ kv, roundtrips kv.2) l → l ≠ [] →
  ∀ f rest,
    (List.length (joinWith "," (map renderMember l)) + 1 <= f)%nat →
    ∃ l', parseMembers f (joinWith "," (map renderMember l) ++ "}"%char :: rest)
          = Some (l', rest)
          ∧ (forallb (λ kv, let '(k, v) := kv in
                            utf8_ValidString k && json_utf8 v) l = true
             → l' = l).
Proof.
  induction 1 as [|[k v] l Hv Hl IH]; [done|]. intros _ f rest Hf.
  destruct f as [|f]; [lia|]. simpl in Hv. destruct l as [|kv2 l].
  - cbn [map joinWith renderMember] in Hf |- *.
    rewrite length_app in Hf. cbn [List.length] in Hf.
    rewrite <- app_assoc, <- app_comm_cons.
    destruct (parseString_appendString k
      (":"%char :: json_render v ++ "}"%char :: rest)) as (k' & Hk & Hkval).
    destruct (Hv f ("}"%char :: rest)) as (v' & Hp & Hval); [lia|done|].
    exists [(k', v')]. cbn [parseMembers]. rewrite Hk.
    change (Ascii.eqb ":" ":") with true. cbv iota. rewrite Hp.
    split; [done|]. cbn [forallb]. rewrite andb_true_r.
    intros [Hu1 Hu2]%andb_true_iff. by rewrite Hkval, Hval.
  - change (joinWith "," (map renderMember ((k, v) :: kv2 :: l)))
      with ((json_appendString k ++ ":"%char :: json_render v)
            ++ ","%char :: joinWith "," (map renderMember (kv2 :: l)))
      in Hf |- *.
    rewrite !length_app in Hf. cbn [List.length] in Hf.
    rewrite ?length_app in Hf. cbn [List.length] in Hf.
    repeat (rewrite <- app_assoc || rewrite <- app_comm_cons).
    destruct (parseString_appendString k
      (":"%char :: json_render v ++ ","%char ::
       joinWith "," (map renderMember (kv2 :: l)) ++ "}"%char :: rest))
      as (k' & Hk & Hkval).
    destruct (Hv f (","%char ::
      joinWith "," (map renderMember (kv2 :: l)) ++ "}"%char :: rest))
      as (v' & Hp & Hval); [lia|done|].
    destruct (IH ltac:(done) f rest) as (l' & Hpl & Hvall); [lia|].
    exists ((k', v') :: l'). cbn [parseMembers]. rewrite Hk.
    change (Ascii.eqb ":" ":") with true. cbv iota. rewrite Hp.
    change (Ascii.eqb "," ",") with true. cbv iota. rewrite Hpl.
    split; [done|]. cbn [forallb].
    intros [[Hu1 Hu2]%andb_true_iff Hu3]%andb_true_iff.
    by rewrite Hkval, Hval, Hvall.
Qed.

Lemma json_render_obj l :
  json_render (JObj l)
  = "{"%char :: joinWith "," (map renderMember l) ++ ["}"%char].
Proof. done. Qed.

(** The decoder reads every document [json_render] writes, and reads
    back the same document when its strings are valid UTF-8. *)
Lemma json_roundtrips j : roundtrips j.
Proof.
  induction j as [|b|n|s|l IH|l IH] using json_ind'; intros f rest Hf Hrest.
  - destruct f as [|f]; [simpl in Hf; lia|].
    exists JNull. split; [apply parseValue_null|done].
  - destruct f as [|f]; [destruct b; simpl in Hf; lia|].
    exists (JBool b). split; [|done].
    destruct b; [apply parseValue_true|apply parseValue_false].
  - destruct f as [|f].
    { destruct (FormatInt_head n) as (c & t & Heq & _).
      simpl in Hf. rewrite Heq in Hf. simpl in Hf. lia. }
    exists (JNum n). split; [by apply parseValue_num|done].
  - destruct f as [|f]; [simpl in Hf; lia|].
    destruct (parseValue_str f s rest) as (s' & Hs & Hv).
    exists (JStr s'). split; [done|]. simpl. intros Hu. by rewrite Hv.
  - destruct f as [|f]; [simpl in Hf; lia|].
    destruct l as [|v l]; [by exists (JArr [])|].
    cbn [json_render] in Hf |- *.
    rewrite <- app_comm_cons, <- app_assoc. cbn [app].
    cbn [List.length] in Hf. rewrite length_app in Hf. cbn [List.length] in Hf.
    destruct (parseElems_render (v :: l) IH ltac:(done) f rest)
      as (l' & Hp & Hval); [lia|].
    exists (JArr l'). split.
    + destruct (json_render_head v) as (c & t & Heq & Hc).
      assert (∃ t', joinWith "," (map json_render (v :: l)) = c :: t')
        as [t' Ht'].
      { destruct l; cbn [map joinWith]; rewrite Heq; by eexists. }
      rewrite Ht' in Hp |- *. rewrite <- app_comm_cons in Hp |- *.
      cbn [parseValue]. change (Ascii.eqb "[" "n") with false.
      change (Ascii.eqb "[" "t") with false.
      change (Ascii.eqb "[" "f") with false.
      change (Ascii.eqb "[" quote) with false.
      change (Ascii.eqb "[" "[") with true. cbv iota.
      by rewrite Hc, Hp.
    + cbn [json_utf8]. intros Hu. by rewrite Hval.
  - destruct f as [|f]; [simpl in Hf; lia|].
    destruct l as [|kv l]; [by exists (JObj [])|].
    rewrite json_render_obj in Hf |- *.
    rewrite <- app_comm_cons, <- app_assoc. cbn [app].
    cbn [List.length] in Hf. rewrite length_app in Hf. cbn [List.length] in Hf.
    destruct (parseMembers_render (kv :: l) IH ltac:(done) f rest)
      as (l' & Hp & Hval); [lia|].
    exists (JObj l'). split.
    + assert (∃ t', joinWith "," (map renderMember (kv :: l)) = quote :: t')
        as [t' Ht'].
      { destruct kv as [k v]. destruct l; cbn [map joinWith renderMember];
          unfold json_appendString; by eexists. }
      rewrite Ht' in Hp |- *. rewrite <- app_comm_cons in Hp |- *.
      cbn [parseValue]. change (Ascii.eqb "{" "n") with false.
      change (Ascii.eqb "{" "t") with false.
      change (Ascii.eqb "{" "f") with false.
      change (Ascii.eqb "{" quote) with false.
      change (Ascii.eqb "{" "[") with false.
      change (Ascii.eqb "{" "{") with true. cbv iota.
      change (Ascii.eqb quote "}") with false. cbv iota.
      by rewrite Hp.
    + cbn [json_utf8]. intros Hu. by rewrite Hval.
Qed.

Lemma json_decode_render j :
  ∃ j', json_decode (json_render j) = Some j'
        ∧ (json_utf8 j = true → j' = j).
Proof.
  destruct (json_roundtrips j (List.length (json_render j)) [])
    as (j' & Hp & Hv); [done|done|].
  exists j'. split; [|done]. unfold json_decode.
  rewrite app_nil_r in Hp. by rewrite Hp.
Qed.

(** * Go values: json_encode *)

Lemma sequence_Ok {A} (rs : list (result A)) l :
  sequence rs = Ok l ↔ rs = Ok <$> l.
Proof.
  revert l. induction rs as [|[a|e] rs IH]; intros l; simpl.
  - split; [intros [= <-]; done|]. by destruct l.
  - destruct (sequence rs) as [l'|e] eqn:Hs.
    + split.
      * intros [= <-]. simpl. f_equal. by apply IH.
      * destruct l as [|a' l]; [done|]. intros [= -> Hrs].
        f_equal. f_equal. apply IH in Hrs. congruence.
    + split; [done|]. destruct l as [|a' l]; [done|]. intros [= -> Hrs].
      apply IH in Hrs. congruence.
  - split; [done|]. by destruct l.
Qed.

Lemma sequence_total {A} (rs : list (result A)) :
  Forall (λ r, ∃ a, r = Ok a) rs → ∃ l, sequence rs = Ok l.
Proof.
  induction 1 as [|r rs [a ->] _ [l IH]]; simpl; [by eexists|].
  rewrite IH. by eexists.
Qed.

Lemma json_encode_VMap m :
  json_encode (VMap m)
  = match sequence (map withKey (sortKeys (map_to_list (json_encode <$> m)))) with
    | Ok l => Ok (JObj l)
    | Err e => Err e
    end.
Proof. done. Qed.

Lemma json_encode_VSlice l :
  json_encode (VSlice l)
  = match sequence (map json_encode l) with
    | Ok l' => Ok (JArr l')
    | Err e => Err e
    end.
Proof. done. Qed.

Lemma member_Some k j l :
  NoDup l.*1 → member k l = Some j ↔ (k, j) ∈ l.
Proof.
  induction l as [|[k' j'] l IH]; simpl; intros Hnd.
  - split; [done|]. by intros ?%elem_of_nil.
  - apply NoDup_cons in Hnd as [Hk' Hnd].
    destruct (String.eqb_spec k k') as [->|Hne].
    + split.
      * intros [= ->]. left.
      * intros [[= ->]|Hin]%elem_of_cons; [done|].
        exfalso. apply Hk'. apply list_elem_of_fmap. by exists (k', j).
    + rewrite IH by done. split; [by right|].
      intros [[= -> ->]|Hin]%elem_of_cons; done.
Qed.


(** The members [json.Marshal] writes for a map: one per key, holding
    the document of the key's value. *)
Lemma json_encode_VMap_Ok m j :
  json_encode (VMap m) = Ok j →
  ∃ members, j = JObj members ∧ NoDup members.*1
    ∧ ∀ k jv, member k members = Some jv
              ↔ ∃ v, m !! k = Some v ∧ json_encode v = Ok jv.
Proof.
  rewrite json_encode_VMap.
  destruct (sequence _) as [l|e] eqn:Hs; [|done]. intros [= <-].
  apply sequence_Ok in Hs.
  assert (sortKeys (map_to_list (json_encode <$> m))
          = (λ kj, (kj.1, Ok kj.2)) <$> l) as Hl.
  { revert Hs. generalize (sortKeys (map_to_list (json_encode <$> m))).
    intros L. revert l. induction L as [|[k r] L IH]; intros [|[k' j'] l];
      csimpl; try done.
    intros Hcons. injection Hcons as Hk HL. unfold withKey in Hk.
    simpl in Hk. destruct r as [a|e]; [|done]. injection Hk as -> ->.
    f_equal. by apply IH. }
  assert ((λ kj : string * json, (kj.1, Ok kj.2)) <$> l
          ≡ₚ map_to_list (json_encode <$> m)) as Hperm.
  { rewrite <- Hl. apply merge_sort_Permutation. }
  assert (l.*1 = ((λ kj : string * json, (kj.1, Ok kj.2)) <$> l).*1) as Hfst.
  { rewrite <- list_fmap_compose. by apply list_fmap_ext. }
  assert (NoDup l.*1) as Hnd.
  { rewrite Hfst, Hperm. apply NoDup_fst_map_to_list. }
  exists l. split; [done|]. split; [done|]. intros k jv.
  rewrite member_Some by done.
  trans ((k, Ok jv) ∈ (λ kj : string * json, (kj.1, Ok kj.2)) <$> l).
  { rewrite list_elem_of_fmap. split.
    - intros Hin. by exists (k, jv).
    - intros ([k' j'] & [= -> ->] & Hin). done. }
  rewrite Hperm, elem_of_map_to_list, lookup_fmap.
  destruct (m !! k) as [v|]; simpl.
  - split.
    + intros Heq. injection Heq as Heq. by exists v.
    + intros (v0 & Heq & Hj). injection Heq as <-. by rewrite Hj.
  - split; [done|]. by intros (v0 & ? & _).
Qed.

(** The members are the entries of the map in the order of their keys. *)
Lemma json_encode_VMap_members m l :
  json_encode (VMap m) = Ok (JObj l) →
  (λ kj : string * json, (kj.1, Ok kj.2)) <$> l
  = sortKeys (map_to_list (json_encode <$> m)).
Proof.
  rewrite json_encode_VMap.
  destruct (sequence _) as [l'|e] eqn:Hs; [|done]. intros [= <-].
  apply sequence_Ok in Hs. symmetry.
  revert Hs. generalize (sortKeys (map_to_list (json_encode <$> m))).
  intros L. revert l'. induction L as [|[k r] L IH]; intros [|[k' j'] l];
    csimpl; try done.
  intros Hcons. injection Hcons as Hk HL. unfold withKey in Hk.
  simpl in Hk. destruct r as [a|e]; [|done]. injection Hk as -> ->.
  f_equal. by apply IH.
Qed.

(** A map is marshalled only if each of its values is. *)
Lemma json_encode_VMap_fields m j k v :
  json_encode (VMap m) = Ok j →
  m !! k = Some v →
  ∃ jv, json_encode v = Ok jv.
Proof.
  intros Hj Hk.
  destruct (json_encode_VMap_Ok m j Hj) as (l & -> & _ & _).
  apply json_encode_VMap_members in Hj.
  assert ((k, json_encode v) ∈ sortKeys (map_to_list (json_encode <$> m)))
    as Hin.
  { unfold sortKeys. rewrite merge_sort_Permutation.
    apply elem_of_map_to_list. by rewrite lookup_fmap, Hk. }
  rewrite <- Hj in Hin. apply list_elem_of_fmap in Hin as ([k' jv] & Heq & _).
  injection Heq as _ Heq. by exists jv.
Qed.

Lemma json_encode_VMap_total m :
  (∀ k v, m !! k = Some v → ∃ j, json_encode v = Ok j) →
  ∃ j, json_encode (VMap m) = Ok j.
Proof.
  intros Hm. rewrite json_encode_VMap.
  destruct (sequence_total
    (map withKey (sortKeys (map_to_list (json_encode <$> m))))) as [l ->];
    [|by eexists].
  apply Forall_forall. intros r [[k r'] [-> Hin]]%list_elem_of_fmap.
  unfold sortKeys in Hin. rewrite merge_sort_Permutation in Hin.
  apply elem_of_map_to_list in Hin. rewrite lookup_fmap in Hin.
  destruct (m !! k) as [v|] eqn:Hk; [|done]. simpl in Hin.
  injection Hin as <-. destruct (Hm k v Hk) as [j Hj].
  unfold withKey. simpl. rewrite Hj. by eexists.
Qed.

(** * The copy loop *)

Lemma copyFields_fmap (fields : gmap string value) :
  copyFields fields = coerce <$> fields.
Proof.
  unfold copyFields.
  apply (map_fold_weak_ind (λ r m, r = coerce <$> m)).
  - by rewrite fmap_empty.
  - intros k v m r _ ->. by rewrite fmap_insert.
Qed.

Lemma json_encode_coerce v :
  (∃ j, json_encode v = Ok j) → ∃ j, json_encode (coerce v) = Ok j.
Proof. destruct v; simpl; try done. by eexists. Qed.

Lemma scanCallers_first rt pcs i n pc :
  pcs !! n = Some pc →
  inLogrus rt pc = false →
  (∀ m pc', (m < n)%nat → pcs !! m = Some pc' → inLogrus rt pc' = true) →
  scanCallers rt pcs i = Some (i + n + 1)%nat.
Proof.
  revert i n. induction pcs as [|pc0 pcs IH]; intros i n Hn Hout Hin; [done|].
  destruct n as [|n]; simpl in Hn.
  - injection Hn as ->. simpl. fold (inLogrus rt pc). rewrite Hout.
    f_equal. lia.
  - simpl. fold (inLogrus rt pc0).
    rewrite (Hin 0%nat pc0) by (done || lia).
    rewrite (IH (S i) n); [f_equal; lia|done|done|].
    intros m pc' Hm Hpc'. apply (Hin (S m)); [lia|done].
Qed.

Lemma scanCallers_None rt pcs i :
  Forall (λ pc, inLogrus rt pc = true) pcs → scanCallers rt pcs i = None.
Proof.
  intros H. revert i. induction H as [|pc pcs Hpc _ IH]; intros i; [done|].
  simpl. fold (inLogrus rt pc). by rewrite Hpc.
Qed.

Lemma scanCallers_pos rt pcs i k :
  scanCallers rt pcs i = Some k → (i + 1 <= k)%nat.
Proof.
  revert i. induction pcs as [|pc pcs IH]; intros i; [done|]. simpl.
  destruct (strings_HasPrefix _ _).
  - intros H%IH. lia.
  - intros [= <-]. lia.
Qed.

Lemma length_window rt : List.length (window rt) = 20%nat.
Proof.
  unfold window, runtime_Callers. rewrite length_app, length_drop.
  rewrite !length_take, length_replicate. lia.
Qed.


Lemma getSkipLevel_hit level rt w k :
  stackSkips w !! level = Some k → getSkipLevel level rt w = (Ok k, w).
Proof. intros H. unfold getSkipLevel, readLocked. by rewrite H. Qed.

Lemma getSkipLevel_miss level rt w :
  stackSkips w !! level = None →
  getSkipLevel level rt w
  = match scanCallers rt (window rt) 0 with
    | Some skip =>
      (Ok skip, {| stackSkips := <[level := skip]> (stackSkips w);
                   walks := S (walks w) |})
    | None =>
      (Err ErrSkipNotFound,
       {| stackSkips := stackSkips w; walks := S (walks w) |})
    end.
Proof.
  intros H. unfold getSkipLevel, readLocked, writeLocked. rewrite H.
  fold (window rt). by destruct (scanCallers rt (window rt) 0).
Qed.

Lemma writeLocked_mono level rt w r w' :
  writeLocked level rt w = (r, w') → stackSkips w ⊆ stackSkips w'.
Proof.
  unfold writeLocked. destruct (stackSkips w !! level) eqn:Hl.
  - by intros [= _ <-].
  - destruct (scanCallers _ _ _); intros [= _ <-]; simpl; [|done].
    by apply insert_subseteq.
Qed.

Lemma getSkipLevel_mono level rt w r w' :
  getSkipLevel level rt w = (r, w') → stackSkips w ⊆ stackSkips w'.
Proof.
  unfold getSkipLevel. destruct (readLocked level w).
  - by intros [= _ <-].
  - apply writeLocked_mono.
Qed.

Lemma getSkipLevel_stored level rt w k w' :
  getSkipLevel level rt w = (Ok k, w') → stackSkips w' !! level = Some k.
Proof.
  destruct (stackSkips w !! level) as [k0|] eqn:Hl.
  - rewrite (getSkipLevel_hit _ _ _ k0) by done. by intros [= <- <-].
  - rewrite getSkipLevel_miss by done.
    destruct (scanCallers _ _ _); intros [= <- <-]. simpl.
    apply lookup_insert_eq.
Qed.

Lemma gstep_mono w g w' g' :
  gstep (w, g) (w', g') → stackSkips w ⊆ stackSkips w'.
Proof.
  inversion 1; subst; [done|done|]. by eapply writeLocked_mono.
Qed.

Lemma step_mono w gs w' gs' :
  step (w, gs) (w', gs') → stackSkips w ⊆ stackSkips w'.
Proof. inversion 1; subst. by eapply gstep_mono. Qed.

(** In every interleaving of goroutines the cache only grows. *)
Lemma steps_mono w gs w' gs' :
  rtc step (w, gs) (w', gs') → stackSkips w ⊆ stackSkips w'.
Proof.
  intros H. remember (w, gs) as x eqn:Hx. remember (w', gs') as y eqn:Hy.
  revert w gs Hx. induction H as [x|x [w1 gs1] y Hstep _ IH];
    intros w gs ->.
  - by injection Hy as -> ->.
  - trans (stackSkips w1); [by eapply step_mono|by eapply IH].
Qed.

(** * Format *)

Lemma Format_world f entry rt w :
  (Format f entry rt w).2
  = if withSourceInfo f then (getSkipLevel (Level_ entry) rt w).2 else w.
Proof.
  unfold Format, formatData. destruct (withSourceInfo f).
  - destruct (getSkipLevel _ _ _) as [[skip|e] w']; [|done].
    destruct (runtime_Caller rt skip); by destruct (json_Marshal _).
  - by destruct (json_Marshal _).
Qed.

Lemma Format_mono f entry rt w r w' :
  Format f entry rt w = (r, w') → stackSkips w ⊆ stackSkips w'.
Proof.
  intros H. pose proof (Format_world f entry rt w) as Hw.
  rewrite H in Hw. simpl in Hw. subst w'. destruct (withSourceInfo f); [|done].
  destruct (getSkipLevel _ _ _) as [r' w'] eqn:Hg. by eapply getSkipLevel_mono.
Qed.

Lemma formatData_Ok f entry rt w data w' :
  formatData f entry rt w = (Ok data, w') →
  data = match attachedFrame f entry rt w with
         | Some fr =>
           <[sourceLocationKey := sourceLocationValue rt fr]> (reservedData entry)
         | None => reservedData entry
         end.
Proof.
  unfold formatData, attachedFrame, reservedData. rewrite copyFields_fmap.
  destruct (withSourceInfo f); [|by intros [= <- _]].
  destruct (getSkipLevel _ _ _) as [[skip|e] w1]; [|done].
  by destruct (runtime_Caller rt skip); intros [= <- _].
Qed.

Section data.

Context (f : GCEFormatter) (entry : Entry) (rt : Runtime) (w w' : World).

Context (data : gmap string value).

Context (Hdata : formatData f entry rt w = (Ok data, w')).

Lemma data_message : data !! "message" = Some (VStr (Message entry)).
Proof using Hdata.
  rewrite (formatData_Ok _ _ _ _ _ _ Hdata). unfold reservedData.
  destruct (attachedFrame f entry rt w).
  - by rewrite lookup_insert_ne, lookup_insert_eq by done.
  - by rewrite lookup_insert_eq.
Qed.

Lemma data_severity :
  data !! "severity" = Some (VStr (severityOf (Level_ entry))).
Proof using Hdata.
  rewrite (formatData_Ok _ _ _ _ _ _ Hdata). unfold reservedData.
  destruct (attachedFrame f entry rt w).
  - by rewrite !lookup_insert_ne, lookup_insert_eq by done.
  - by rewrite lookup_insert_ne, lookup_insert_eq by done.
Qed.

Lemma data_time :
  data !! "time" = Some (VStr (time_Format_RFC3339Nano (Time_ entry))).
Proof using Hdata.
  rewrite (formatData_Ok _ _ _ _ _ _ Hdata). unfold reservedData.
  destruct (attachedFrame f entry rt w).
  - by rewrite !lookup_insert_ne, lookup_insert_eq by done.
  - by rewrite !lookup_insert_ne, lookup_insert_eq by done.
Qed.

Lemma data_sourceLocation fr :
  attachedFrame f entry rt w = Some fr →
  data !! sourceLocationKey = Some (sourceLocationValue rt fr).
Proof using Hdata.
  intros Hfr. rewrite (formatData_Ok _ _ _ _ _ _ Hdata), Hfr.
  by rewrite lookup_insert_eq.
Qed.

Lemma data_field k :
  k ∉ assignedKeys f entry rt w →
  data !! k = coerce <$> (Data entry !! k).
Proof using Hdata.
  unfold assignedKeys. intros Hk.
  rewrite (formatData_Ok _ _ _ _ _ _ Hdata). unfold reservedData.
  destruct (attachedFrame f entry rt w).
  - rewrite !lookup_insert_ne, lookup_fmap by set_solver. done.
  - rewrite !lookup_insert_ne, lookup_fmap by set_solver. done.
Qed.


End data.

(** What a successful [Format] returns: the line of an object that has
    one member per key of [data], holding the document of its value. *)
Lemma Format_Ok f entry rt w out w' :
  Format f entry rt w = (Ok out, w') →
  ∃ data members,
    formatData f entry rt w = (Ok data, w')
    ∧ lineOf members out
    ∧ NoDup members.*1
    ∧ ∀ k jv, member k members = Some jv
              ↔ ∃ v, data !! k = Some v ∧ json_encode v = Ok jv.
Proof.
  unfold Format. destruct (formatData f entry rt w) as [[data|e] w1]; [|done].
  unfold json_Marshal. destruct (json_encode (VMap data)) as [j|e] eqn:Hj;
    [|done].
  intros [= <- <-].
  destruct (json_encode_VMap_Ok data j Hj) as (members & -> & Hnd & Hm).
  by exists data, members.
Qed.

Lemma json_encode_sourceLocation rt fr :
  json_encode (sourceLocationValue rt fr)
  = Ok (JObj [("file", JStr (frame_file fr));
              ("function",
               JStr (Func_Name (runtime_FuncForPC rt (frame_pc fr))));
              ("line", JNum (frame_line fr))]).
Proof. reflexivity. Qed.

(** [Format] succeeds as soon as the skip depth is resolved, when it is
    asked for, and every field can be marshalled. *)
Lemma Format_succeeds f entry rt w :
  (∀ k v, Data entry !! k = Some v → ∃ j, json_encode v = Ok j) →
  (withSourceInfo f = true →
   ∃ skip w1, getSkipLevel (Level_ entry) rt w = (Ok skip, w1)) →
  ∃ out w', Format f entry rt w = (Ok out, w').
Proof.
  intros Hfields Hskip. unfold Format.
  destruct (formatData f entry rt w) as [[data|e] w1] eqn:Hd.
  - destruct (json_encode_VMap_total data) as [j Hj].
    { intros k v Hk.
      destruct (decide (k ∈ assignedKeys f entry rt w)) as [Hin|Hout].
      - unfold assignedKeys in Hin. apply elem_of_app in Hin as [Hin|Hin].
        + assert (k = "time" ∨ k = "severity" ∨ k = "message") as Hcases
            by set_solver.
          destruct Hcases as [->|[->| ->]].
          * rewrite (data_time _ _ _ _ _ _ Hd) in Hk. injection Hk as <-.
            by eexists.
          * rewrite (data_severity _ _ _ _ _ _ Hd) in Hk. injection Hk as <-.
            by eexists.
          * rewrite (data_message _ _ _ _ _ _ Hd) in Hk. injection Hk as <-.
            by eexists.
        + destruct (attachedFrame f entry rt w) as [fr|] eqn:Hfr;
            [|by apply elem_of_nil in Hin].
          apply list_elem_of_singleton in Hin as ->.
          rewrite (data_sourceLocation _ _ _ _ _ _ Hd fr Hfr) in Hk.
          injection Hk as <-. rewrite json_encode_sourceLocation. by eexists.
      - rewrite (data_field _ _ _ _ _ _ Hd k Hout) in Hk.
        destruct (Data entry !! k) as [v0|] eqn:Hk0; [|done].
        injection Hk as <-. apply json_encode_coerce. by eapply Hfields. }
    unfold json_Marshal. rewrite Hj. by eexists _, _.
  - exfalso. unfold formatData in Hd.
    destruct (withSourceInfo f); [|done].
    destruct Hskip as (skip & w2 & Hs); [done|]. rewrite Hs in Hd.
    by destruct (runtime_Caller rt skip).
Qed.

Example Format_sample :
  (Format (NewGCEFormatter true)
     (sampleEntry ErrorLevel {[ "path" := VStr "/data" ]})
     rtViaLogrus initWorld).1
  = Ok (bytesOf ("{" +:+ String quote "logging.googleapis.com/sourceLocation"
      +:+ String quote ":{" +:+ String quote "file" +:+ String quote ":"
      +:+ String quote "main.go" +:+ String quote ","
      +:+ String quote "function" +:+ String quote ":"
      +:+ String quote "main.main" +:+ String quote ","
      +:+ String quote "line" +:+ String quote ":12},"
      +:+ String quote "message" +:+ String quote ":"
      +:+ String quote "disk full" +:+ String quote ","
      +:+ String quote "path" +:+ String quote ":"
      +:+ String quote "/data" +:+ String quote ","
      +:+ String quote "severity" +:+ String quote ":"
      +:+ String quote "ERROR" +:+ String quote ","
      +:+ String quote "time" +:+ String quote ":"
      +:+ String quote "2024-01-02T15:04:05.000006Z" +:+ String quote "}"
      +:+ String newline "")).
Proof. vm_compute. reflexivity. Qed.

(** * Properties of the formatter *)

Lemma levelsLogrusToGCE_None level :
  level ∉ mappedLevels → levelsLogrusToGCE !! level = None.
Proof.
  intros Hout. apply not_elem_of_list_to_map_1. simpl. exact Hout.
Qed.

Lemma severityOf_unmapped level :
  level ∉ mappedLevels → severityOf level = "".
Proof.
  intros Hout. unfold severityOf.
  change (default "" (levelsLogrusToGCE !! level) = default "" (@None severity)).
  f_equal. by apply levelsLogrusToGCE_None.
Qed.

Lemma severityOf_mapped level :
  level ∈ mappedLevels → severityOf level ∈ producible.
Proof.
  unfold mappedLevels. intros Hin.
  repeat (apply elem_of_cons in Hin as [->|Hin]; [compute_done|]).
  by apply elem_of_nil in Hin.
Qed.

Lemma severityOf_cases level :
  severityOf level ∈ producible ∨ severityOf level = "".
Proof.
  destruct (decide (level ∈ mappedLevels)) as [Hin|Hout].
  - left. by apply severityOf_mapped.
  - right. by apply severityOf_unmapped.
Qed.

Lemma severityOf_reserved level :
  severityOf level ≠ severityNOTICE ∧ severityOf level ≠ severityEMERGENCY.
Proof.
  destruct (severityOf_cases level) as [Hs|Hs].
  - split; intros Heq; rewrite Heq in Hs; revert Hs; compute_done.
  - by rewrite Hs.
Qed.

(** C1 (as amended).  The map sends Debug to DEBUG, Info to INFO, Warn
    to WARNING, Error to ERROR, Fatal to CRITICAL and Panic to ALERT.
    The severity member of every formatted line is the map's value for
    the record's level: one of these six for the six mapped levels, the
    empty string for any other level, and never NOTICE or EMERGENCY. *)
Theorem severity_mapping f entry rt w out w' :
  Format f entry rt w = (Ok out, w') →
  levelsLogrusToGCE !! DebugLevel = Some severityDEBUG
  ∧ levelsLogrusToGCE !! InfoLevel = Some severityINFO
  ∧ levelsLogrusToGCE !! WarnLevel = Some severityWARNING
  ∧ levelsLogrusToGCE !! ErrorLevel = Some severityERROR
  ∧ levelsLogrusToGCE !! FatalLevel = Some severityCRITICAL
  ∧ levelsLogrusToGCE !! PanicLevel = Some severityALERT
  ∧ ∃ members,
      lineOf members out
      ∧ member "severity" members = Some (JStr (severityOf (Level_ entry)))
      ∧ (Level_ entry ∈ mappedLevels → severityOf (Level_ entry) ∈ producible)
      ∧ (Level_ entry ∉ mappedLevels → severityOf (Level_ entry) = "")
      ∧ severityOf (Level_ entry) ≠ severityNOTICE
      ∧ severityOf (Level_ entry) ≠ severityEMERGENCY.
Proof.
  intros HF. do 6 (split; [done|]).
  destruct (Format_Ok _ _ _ _ _ _ HF) as (data & members & Hd & Hline & _ & Hm).
  exists members. split; [done|]. split.
  { apply Hm. eexists. split; [by eapply data_severity|done]. }
  split; [apply severityOf_mapped|]. split; [apply severityOf_unmapped|].
  apply severityOf_reserved.
Qed.

Lemma Format_sample_warn :
  Format (NewGCEFormatter false) (sampleEntry WarnLevel ∅) rtDirect initWorld
  = (Ok (sampleLine "WARNING"), initWorld).
Proof. vm_compute. reflexivity. Qed.

Lemma severity_mapping_witness :
  ∃ members,
    lineOf members (sampleLine "WARNING")
    ∧ member "severity" members = Some (JStr severityWARNING).
Proof.
  destruct (severity_mapping _ _ _ _ _ _ Format_sample_warn)
    as (_ & _ & _ & _ & _ & _ & members & Hline & Hm & _).
  exists members. split; [exact Hline|exact Hm].
Defined.

(** At the level Trace, which the map does not hold, the severity of
    the line is the empty string, none of the six. *)
Lemma severity_mapping_counterexample :
  Format (NewGCEFormatter false) (sampleEntry TraceLevel ∅) rtDirect initWorld
    = (Ok (sampleLine ""), initWorld)
  ∧ (∃ members,
      json_decode (bodyOf (sampleLine "")) = Some (JObj members)
      ∧ member "severity" members = Some (JStr ""))
  ∧ "" ∉ producible.
Proof.
  split; [vm_compute; reflexivity|]. split; [|compute_done].
  eexists. split; [vm_compute; reflexivity|reflexivity].
Qed.

Lemma call_mono w w' : call w w' → stackSkips w ⊆ stackSkips w'.
Proof.
  inversion 1; subst; [by eapply getSkipLevel_mono|by eapply Format_mono].
Qed.

Lemma calls_mono w w' : rtc call w w' → stackSkips w ⊆ stackSkips w'.
Proof.
  induction 1 as [|w w1 w2 Hc _ IH]; [done|].
  trans (stackSkips w1); [by apply call_mono|done].
Qed.

Lemma getSkipLevel_cached level rt w w1 k :
  stackSkips w !! level = Some k →
  stackSkips w ⊆ stackSkips w1 →
  getSkipLevel level rt w1 = (Ok k, w1).
Proof.
  intros Hk Hsub. apply getSkipLevel_hit. by eapply lookup_weaken.
Qed.

Lemma Format_getSkipLevel f entry rt w out w' :
  withSourceInfo f = true →
  Format f entry rt w = (Ok out, w') →
  ∃ k, getSkipLevel (Level_ entry) rt w = (Ok k, w').
Proof.
  intros Hf. unfold Format, formatData. rewrite Hf.
  destruct (getSkipLevel _ _ _) as [[k|e] w1]; [|done]. exists k.
  destruct (runtime_Caller rt k); destruct (json_Marshal _); naive_solver.
Qed.

(** C2.  When the cache holds nothing for the level, the resolver scans
    the captured window in order: if slot [i] is the first whose function
    name does not begin with github.com/sirupsen/logrus, it returns
    [i + 1], stores [i + 1] in the cache under the level, and has walked
    the stack once. *)
Theorem getSkipLevel_first_outside level rt w i pc :
  stackSkips w !! level = None →
  window rt !! i = Some pc →
  inLogrus rt pc = false →
  (∀ j pc', (j < i)%nat → window rt !! j = Some pc' → inLogrus rt pc' = true) →
  getSkipLevel level rt w
  = (Ok (i + 1)%nat,
     {| stackSkips := <[level := (i + 1)%nat]> (stackSkips w);
        walks := S (walks w) |}).
Proof.
  intros Hmiss Hi Hout Hin. rewrite getSkipLevel_miss by done.
  by rewrite (scanCallers_first rt (window rt) 0 i pc).
Qed.

Lemma getSkipLevel_first_outside_witness :
  getSkipLevel InfoLevel rtViaLogrus initWorld
  = (Ok 5%nat, {| stackSkips := <[InfoLevel := 5%nat]> ∅; walks := 1 |}).
Proof.
  apply (getSkipLevel_first_outside InfoLevel rtViaLogrus initWorld 4 0x3000).
  - reflexivity.
  - vm_compute. reflexivity.
  - vm_compute. reflexivity.
  - intros j pc' Hj Hl.
    do 4 (destruct j as [|j];
          [vm_compute in Hl; injection Hl as <-; vm_compute; reflexivity|]).
    lia.
Defined.

(** C3.  Once a lookup has returned a depth for a level, every lookup
    for that level made after any further calls of the package returns
    the same depth and leaves the world, its count of stack walks
    included, as it is; a call, and any interleaving of the locked
    sections of concurrent lookups, keeps every entry of the cache with
    its value; and of two successful format calls in a row at one level,
    with source info on, the second resolves the same depth as the first
    without a walk. *)
Theorem skip_cache_stable :
  (∀ level rt0 w0 k w w1 rt,
     getSkipLevel level rt0 w0 = (Ok k, w) →
     rtc call w w1 →
     getSkipLevel level rt w1 = (Ok k, w1))
  ∧ (∀ w w1, rtc call w w1 → stackSkips w ⊆ stackSkips w1)
  ∧ (∀ w gs w1 gs1, rtc step (w, gs) (w1, gs1) → stackSkips w ⊆ stackSkips w1)
  ∧ (∀ f e1 e2 rt1 rt2 w0 out1 w1 out2 w2,
       withSourceInfo f = true →
       Level_ e1 = Level_ e2 →
       Format f e1 rt1 w0 = (Ok out1, w1) →
       Format f e2 rt2 w1 = (Ok out2, w2) →
       ∃ k, getSkipLevel (Level_ e1) rt1 w0 = (Ok k, w1)
            ∧ getSkipLevel (Level_ e2) rt2 w1 = (Ok k, w1)
            ∧ w2 = w1).
Proof.
  split; [|split; [|split]].
  - intros level rt0 w0 k w w1 rt Hg Hc.
    eapply getSkipLevel_cached; [by eapply getSkipLevel_stored|].
    by apply calls_mono.
  - apply calls_mono.
  - apply steps_mono.
  - intros f e1 e2 rt1 rt2 w0 out1 w1 out2 w2 Hf Hl H1 H2.
    destruct (Format_getSkipLevel _ _ _ _ _ _ Hf H1) as [k Hk].
    exists k. split; [done|].
    assert (getSkipLevel (Level_ e2) rt2 w1 = (Ok k, w1)) as Hk2.
    { rewrite <- Hl. eapply getSkipLevel_cached; [|done].
      by eapply getSkipLevel_stored. }
    split; [done|].
    destruct (Format_getSkipLevel _ _ _ _ _ _ Hf H2) as [k' Hk'].
    rewrite Hk2 in Hk'. by injection Hk' as _ <-.
Qed.

Lemma getSkipLevel_sample :
  getSkipLevel InfoLevel rtViaLogrus initWorld = (Ok 5%nat, worldInfo5).
Proof. vm_compute. reflexivity. Qed.

Lemma call_sample : rtc call worldInfo5 worldInfo5.
Proof. constructor. Qed.

Lemma skip_cache_stable_witness :
  getSkipLevel InfoLevel rtDirect worldInfo5 = (Ok 5%nat, worldInfo5).
Proof.
  destruct skip_cache_stable as (Hlater & _).
  exact (Hlater InfoLevel rtViaLogrus initWorld 5%nat worldInfo5 worldInfo5
           rtDirect getSkipLevel_sample call_sample).
Defined.

(** C4.  With source info on and nothing cached for the record's level,
    if every one of the twenty slots of the window holds a function of
    the front-end, [Format] returns [ErrSkipNotFound] and no bytes; the
    cache is left as it was, no depth, and so not depth 0, being stored
    or used. *)
Theorem Format_SkipNotFound f entry rt w :
  withSourceInfo f = true →
  stackSkips w !! Level_ entry = None →
  Forall (λ pc, inLogrus rt pc = true) (window rt) →
  Format f entry rt w
  = (Err ErrSkipNotFound,
     {| stackSkips := stackSkips w; walks := S (walks w) |}).
Proof.
  intros Hf Hmiss Hall. unfold Format, formatData. rewrite Hf.
  rewrite getSkipLevel_miss by done. by rewrite scanCallers_None.
Qed.

Lemma Format_SkipNotFound_witness :
  Format (NewGCEFormatter true) (sampleEntry InfoLevel ∅) rtDeep initWorld
  = (Err ErrSkipNotFound, {| stackSkips := ∅; walks := 1 |}).
Proof.
  apply (Format_SkipNotFound (NewGCEFormatter true) (sampleEntry InfoLevel ∅)
           rtDeep initWorld).
  - reflexivity.
  - reflexivity.
  - vm_compute. repeat constructor.
Defined.




Lemma Format_sample_located :
  Format (NewGCEFormatter true) (sampleEntry InfoLevel ∅) rtViaLogrus initWorld
  = (Ok sampleLineLocated, worldInfo5).
Proof. vm_compute. reflexivity. Qed.



Lemma severityOf_None level :
  levelsLogrusToGCE !! level = None → severityOf level = "".
Proof.
  intros Hn. unfold severityOf.
  change (default "" (levelsLogrusToGCE !! level) = default "" (@None severity)).
  f_equal. exact Hn.
Qed.

Lemma Format_member_severity f entry rt w out w' :
  Format f entry rt w = (Ok out, w') →
  ∃ members,
    lineOf members out
    ∧ member "severity" members = Some (JStr (severityOf (Level_ entry))).
Proof.
  intros HF.
  destruct (Format_Ok _ _ _ _ _ _ HF) as (data & members & Hd & Hline & _ & Hm).
  exists members. split; [done|]. apply Hm.
  eexists. split; [by eapply data_severity|done].
Qed.

(** C6.  For a record whose level the severity map does not hold,
    [Format] succeeds whenever the fields can be marshalled and the skip
    depth, if asked for, is resolved, and the severity of its line is the
    empty string; the severity of every line is one of the six values of
    the map or the empty string. *)
Theorem severity_unmapped f entry rt w :
  (levelsLogrusToGCE !! Level_ entry = None →
   (∀ k v, Data entry !! k = Some v → ∃ j, json_encode v = Ok j) →
   (withSourceInfo f = true →
    ∃ skip w1, getSkipLevel (Level_ entry) rt w = (Ok skip, w1)) →
   ∃ out w' members,
     Format f entry rt w = (Ok out, w')
     ∧ lineOf members out
     ∧ member "severity" members = Some (JStr ""))
  ∧ (∀ out w',
       Format f entry rt w = (Ok out, w') →
       ∃ members s,
         lineOf members out
         ∧ member "severity" members = Some (JStr s)
         ∧ (s ∈ producible ∨ s = "")).
Proof.
  split.
  - intros Hn Hfields Hskip.
    destruct (Format_succeeds f entry rt w Hfields Hskip) as (out & w' & HF).
    destruct (Format_member_severity _ _ _ _ _ _ HF) as (members & Hl & Hm).
    exists out, w', members. rewrite (severityOf_None _ Hn) in Hm. done.
  - intros out w' HF.
    destruct (Format_member_severity _ _ _ _ _ _ HF) as (members & Hl & Hm).
    exists members, (severityOf (Level_ entry)).
    split; [done|]. split; [done|]. apply severityOf_cases.
Qed.

Lemma severity_unmapped_witness :
  ∃ out w' members,
    Format (NewGCEFormatter false) (sampleEntry TraceLevel ∅) rtDirect initWorld
    = (Ok out, w')
    ∧ lineOf members out
    ∧ member "severity" members = Some (JStr "").
Proof.
  apply (proj1 (severity_unmapped (NewGCEFormatter false)
                  (sampleEntry TraceLevel ∅) rtDirect initWorld)).
  - reflexivity.
  - intros k v Hk. vm_compute in Hk. discriminate Hk.
  - intros Hf. vm_compute in Hf. discriminate Hf.
Defined.

Lemma Format_member_field f entry rt w out w' k v :
  Format f entry rt w = (Ok out, w') →
  Data entry !! k = Some v →
  k ∉ assignedKeys f entry rt w →
  ∃ members jv,
    lineOf members out
    ∧ member k members = Some jv
    ∧ json_encode (coerce v) = Ok jv.
Proof.
  intros HF Hk Hout.
  destruct (Format_Ok _ _ _ _ _ _ HF) as (data & members & Hd & Hline & _ & Hm).
  pose proof (data_field _ _ _ _ _ _ Hd k Hout) as Hdk. rewrite Hk in Hdk.
  destruct (json_encode (coerce v)) as [jv|e] eqn:Hjv.
  - exists members, jv. split; [done|]. split; [|done]. apply Hm. by eexists.
  - exfalso. unfold Format in HF. rewrite Hd in HF. unfold json_Marshal in HF.
    destruct (json_encode (VMap data)) as [j|e'] eqn:Hj; [|done].
    destruct (json_encode_VMap_fields data j k _ Hj Hdk) as [jv Hjv'].
    by rewrite Hjv in Hjv'.
Qed.

(** C7 (as amended).  An input field whose key is not one the formatter
    assigns itself is in the line of a successful [Format]: with the text
    of the error, a string and never the empty object, when its value is
    an error; with the document of the value itself otherwise. *)
Theorem fields_copied f entry rt w out w' k v :
  Format f entry rt w = (Ok out, w') →
  Data entry !! k = Some v →
  k ∉ assignedKeys f entry rt w →
  ∃ members jv,
    lineOf members out
    ∧ member k members = Some jv
    ∧ (∀ msg, v = VErr msg → jv = JStr msg ∧ jv ≠ JObj [])
    ∧ ((∀ msg, v ≠ VErr msg) → json_encode v = Ok jv).
Proof.
  intros HF Hk Hout.
  destruct (Format_member_field _ _ _ _ _ _ _ _ HF Hk Hout)
    as (members & jv & Hline & Hmem & Hjv).
  exists members, jv. split; [done|]. split; [done|]. split.
  - intros msg ->. simpl in Hjv. by injection Hjv as <-.
  - intros Hne. destruct v; try done. by destruct (Hne msg).
Qed.

Lemma Format_sample_errField :
  Format (NewGCEFormatter false) entryErrField rtDirect initWorld
  = (Ok (sampleLineField "cause" "boom"), initWorld).
Proof. vm_compute. reflexivity. Qed.

Lemma fields_copied_witness :
  ∃ members jv,
    lineOf members (sampleLineField "cause" "boom")
    ∧ member "cause" members = Some jv
    ∧ (∀ msg, VErr "boom" = VErr msg → jv = JStr msg ∧ jv ≠ JObj [])
    ∧ ((∀ msg, VErr "boom" ≠ VErr msg) → json_encode (VErr "boom") = Ok jv).
Proof.
  apply (fields_copied (NewGCEFormatter false) entryErrField rtDirect initWorld
           (sampleLineField "cause" "boom") initWorld "cause" (VErr "boom")).
  - vm_compute. reflexivity.
  - vm_compute. reflexivity.
  - apply (bool_decide_unpack _). vm_compute. reflexivity.
Defined.

(** An error under the key message is dropped: the line holds the
    record's own message there and the text of the error nowhere. *)
Lemma fields_copied_counterexample :
  Data entryErrMessage !! "message" = Some (VErr "boom")
  ∧ Format (NewGCEFormatter false) entryErrMessage rtDirect initWorld
    = (Ok (sampleLine "INFO"), initWorld)
  ∧ ∃ members,
      json_decode (bodyOf (sampleLine "INFO")) = Some (JObj members)
      ∧ member "message" members = Some (JStr "disk full")
      ∧ Forall (λ kv, kv.2 ≠ JStr "boom") members.
Proof.
  split; [vm_compute; reflexivity|]. split; [vm_compute; reflexivity|].
  eexists. split; [vm_compute; reflexivity|]. split; [reflexivity|].
  repeat (constructor; [simpl; discriminate|]). constructor.
Qed.

(** C10 (as amended).  Whatever the input fields hold under the keys
    time, severity and message, the line of a successful [Format] holds
    the formatter's own values there.  Under the key
    logging.googleapis.com/sourceLocation it holds the formatter's value
    when a frame is attached; when none is attached (source info off, or
    no frame at the resolved depth) an input field under that key is
    kept.  The record is only read. *)
Theorem reserved_keys_overwritten f entry rt w out w' :
  Format f entry rt w = (Ok out, w') →
  ∃ members,
    lineOf members out
    ∧ member "time" members
      = Some (JStr (time_Format_RFC3339Nano (Time_ entry)))
    ∧ member "severity" members = Some (JStr (severityOf (Level_ entry)))
    ∧ member "message" members = Some (JStr (Message entry))
    ∧ (∀ fr, attachedFrame f entry rt w = Some fr →
         member sourceLocationKey members = Some (sourceLocationJSON rt fr))
    ∧ (attachedFrame f entry rt w = None →
       ∀ v, Data entry !! sourceLocationKey = Some v →
         ∃ jv, json_encode (coerce v) = Ok jv
               ∧ member sourceLocationKey members = Some jv).
Proof.
  intros HF.
  destruct (Format_Ok _ _ _ _ _ _ HF) as (data & members & Hd & Hline & _ & Hm).
  exists members. split; [done|].
  split; [|split; [|split; [|split]]].
  - apply Hm. eexists. split; [by eapply data_time|done].
  - apply Hm. eexists. split; [by eapply data_severity|done].
  - apply Hm. eexists. split; [by eapply data_message|done].
  - intros fr Hat. apply Hm. eexists.
    split; [by eapply data_sourceLocation|apply json_encode_sourceLocation].
  - intros Hnone v Hv.
    assert (sourceLocationKey ∉ assignedKeys f entry rt w) as Hout.
    { unfold assignedKeys. rewrite Hnone.
      apply (bool_decide_unpack _). vm_compute. reflexivity. }
    destruct (Format_member_field _ _ _ _ _ _ _ _ HF Hv Hout)
      as (members' & jv & Hline' & Hmem & Hjv).
    exists jv. split; [done|].
    unfold lineOf in Hline, Hline'. rewrite Hline in Hline'.
    apply app_inv_tail in Hline'.
    pose proof (data_field _ _ _ _ _ _ Hd _ Hout) as Hdk. rewrite Hv in Hdk.
    apply Hm. by eexists.
Qed.

Lemma Format_sample_errMessage :
  Format (NewGCEFormatter false) entryErrMessage rtDirect initWorld
  = (Ok (sampleLine "INFO"), initWorld).
Proof. vm_compute. reflexivity. Qed.

Lemma reserved_keys_overwritten_witness :
  ∃ members,
    lineOf members (sampleLine "INFO")
    ∧ member "message" members = Some (JStr "disk full").
Proof.
  destruct (reserved_keys_overwritten _ _ _ _ _ _ Format_sample_errMessage)
    as (members & Hline & _ & _ & Hm & _).
  exists members. split; [exact Hline|exact Hm].
Defined.

(** With source info off, an input field under the key of the source
    location is not overwritten. *)
Lemma reserved_keys_overwritten_counterexample :
  Data entryOwnLocation !! sourceLocationKey = Some (VStr "here")
  ∧ Format (NewGCEFormatter false) entryOwnLocation rtDirect initWorld
    = (Ok (sampleLineField sourceLocationKey "here"), initWorld)
  ∧ ∃ members,
      json_decode (bodyOf (sampleLineField sourceLocationKey "here"))
      = Some (JObj members)
      ∧ member sourceLocationKey members = Some (JStr "here").
Proof.
  split; [vm_compute; reflexivity|]. split; [vm_compute; reflexivity|].
  eexists. split; [vm_compute; reflexivity|reflexivity].
Qed.














(** * The line as a JSON text *)


Lemma json_decode_object t j :
  json_decode ("{"%char :: t) = Some j → ∃ members, j = JObj members.
Proof.
  unfold json_decode. cbn [List.length parseValue].
  change (Ascii.eqb "{" "n") with false. change (Ascii.eqb "{" "t") with false.
  change (Ascii.eqb "{" "f") with false. change (Ascii.eqb "{" quote) with false.
  change (Ascii.eqb "{" "[") with false. change (Ascii.eqb "{" "{") with true.
  cbv iota. destruct t as [|c' t']; [done|].
  destruct (Ascii.eqb c' "}").
  - destruct t'; [|done]. intros [= <-]. by eexists.
  - destruct (parseMembers _ _) as [[l rest]|]; [|done].
    destruct rest; [|done]. intros [= <-]. by eexists.
Qed.

Lemma json_render_object members :
  ∃ t, json_render (JObj members) = "{"%char :: t
       ∧ last (json_render (JObj members)) = Some "}"%char.
Proof.
  cbn [json_render]. eexists. split; [done|].
  by rewrite app_comm_cons, last_snoc.
Qed.

(** C8.  The bytes a successful [Format] returns are the text of one
    JSON object, which the decoder reads to its end, followed by one
    newline; the text begins with the opening brace and ends with the
    closing brace, so no white space comes before it or between it and
    the newline. *)
Theorem Format_line f entry rt w out w' :
  Format f entry rt w = (Ok out, w') →
  ∃ body members,
    out = body ++ [newline]
    ∧ json_decode body = Some (JObj members)
    ∧ head body = Some "{"%char
    ∧ last body = Some "}"%char.
Proof.
  intros HF.
  destruct (Format_Ok _ _ _ _ _ _ HF) as (data & members & _ & Hline & _ & _).
  destruct (json_render_object members) as (t & Hhead & Hlast).
  destruct (json_decode_render (JObj members)) as (j' & Hdec & _).
  exists (json_render (JObj members)).
  rewrite Hhead in Hdec. destruct (json_decode_object _ _ Hdec) as [ms ->].
  exists ms. rewrite <- Hhead in Hdec. split; [done|]. split; [done|].
  split; [by rewrite Hhead|done].
Qed.

Lemma Format_line_witness :
  ∃ body members,
    sampleLine "WARNING" = body ++ [newline]
    ∧ json_decode body = Some (JObj members)
    ∧ head body = Some "{"%char
    ∧ last body = Some "}"%char.
Proof.
  exact (Format_line _ _ _ _ _ _ Format_sample_warn).
Defined.





(** * Further properties of the resolver *)

Lemma scanCallers_None_inv rt pcs i :
  scanCallers rt pcs i = None → Forall (λ pc, inLogrus rt pc = true) pcs.
Proof.
  revert i. induction pcs as [|pc pcs IH]; intros i; [constructor|].
  simpl. fold (inLogrus rt pc). destruct (inLogrus rt pc) eqn:Hpc; [|done].
  intros Hs. constructor; [done|by eapply IH].
Qed.

Lemma scanCallers_le rt pcs i k :
  scanCallers rt pcs i = Some k → (k <= i + List.length pcs)%nat.
Proof.
  revert i. induction pcs as [|pc pcs IH]; intros i; [done|]. simpl.
  destruct (strings_HasPrefix _ _).
  - intros H%IH. lia.
  - intros [= <-]. lia.
Qed.

(** What a lookup that misses the cache does: one stack walk, and
    either a depth between 1 and 20, stored under the level, or
    [ErrSkipNotFound] with the cache as it was, which happens only when
    all twenty slots of the window hold functions of the front-end. *)
Theorem getSkipLevel_miss_outcome level rt w r w' :
  stackSkips w !! level = None →
  getSkipLevel level rt w = (r, w') →
  walks w' = S (walks w)
  ∧ match r with
    | Ok k =>
      (1 <= k <= 20)%nat ∧ stackSkips w' = <[level := k]> (stackSkips w)
    | Err e =>
      e = ErrSkipNotFound
      ∧ stackSkips w' = stackSkips w
      ∧ Forall (λ pc, inLogrus rt pc = true) (window rt)
    end.
Proof.
  intros Hmiss. rewrite getSkipLevel_miss by done.
  destruct (scanCallers rt (window rt) 0) as [k|] eqn:Hs; intros [= <- <-].
  - split; [done|]. split; [|done].
    pose proof (scanCallers_pos _ _ _ _ Hs).
    pose proof (scanCallers_le _ _ _ _ Hs) as Hle.
    rewrite length_window in Hle. lia.
  - split; [done|]. split; [done|]. split; [done|].
    by eapply scanCallers_None_inv.
Qed.

Lemma getSkipLevel_miss_outcome_witness :
  walks {| stackSkips := ∅; walks := 1 |} = S (walks initWorld)
  ∧ ErrSkipNotFound = ErrSkipNotFound
    ∧ stackSkips {| stackSkips := ∅; walks := 1 |} = stackSkips initWorld
    ∧ Forall (λ pc, inLogrus rtDeep pc = true) (window rtDeep).
Proof.
  apply (getSkipLevel_miss_outcome InfoLevel rtDeep initWorld
           (Err ErrSkipNotFound) {| stackSkips := ∅; walks := 1 |}).
  - reflexivity.
  - vm_compute. reflexivity.
Defined.

(** A lookup for one level leaves the entries of the other levels as
    they are, and a lookup that fails leaves the whole cache as it is. *)
Theorem getSkipLevel_frame level rt w r w' :
  getSkipLevel level rt w = (r, w') →
  (∀ l, l ≠ level → stackSkips w' !! l = stackSkips w !! l)
  ∧ (∀ e, r = Err e → stackSkips w' = stackSkips w).
Proof.
  destruct (stackSkips w !! level) as [k0|] eqn:Hl.
  - rewrite (getSkipLevel_hit _ _ _ k0) by done. by intros [= <- <-].
  - rewrite getSkipLevel_miss by done.
    destruct (scanCallers _ _ _); intros [= <- <-]; simpl.
    + split; [|done]. intros l Hne. by rewrite lookup_insert_ne.
    + done.
Qed.

Lemma getSkipLevel_frame_witness :
  (∀ l, l ≠ InfoLevel →
     stackSkips worldInfo5 !! l = stackSkips initWorld !! l)
  ∧ (∀ e, Ok 5%nat = Err e → stackSkips worldInfo5 = stackSkips initWorld).
Proof.
  apply (getSkipLevel_frame InfoLevel rtViaLogrus initWorld (Ok 5%nat)
           worldInfo5).
  vm_compute. reflexivity.
Defined.

(** The empty slots of the window count as callers: when the program
    counter 0 names no function and the stack holds fewer than twenty
    frames above [Format], a lookup never fails. *)
Theorem getSkipLevel_short_stack level rt w :
  funcs rt !! 0 = None →
  (List.length (callstack rt) <= 20)%nat →
  ∃ k w', getSkipLevel level rt w = (Ok k, w').
Proof.
  intros Hzero Hlen.
  destruct (stackSkips w !! level) as [k0|] eqn:Hl.
  { exists k0, w. by apply getSkipLevel_hit. }
  rewrite getSkipLevel_miss by done.
  destruct (scanCallers rt (window rt) 0) as [k|] eqn:Hs; [by eexists _, _|].
  exfalso. apply scanCallers_None_inv in Hs.
  assert (window rt !! 19%nat = Some 0) as H19.
  { unfold window, runtime_Callers. rewrite length_replicate.
    set (pcs := take 20 (frame_pc <$> drop (3 - 2) (callstack rt))).
    assert (List.length pcs <= 19)%nat as Hpcs.
    { unfold pcs. rewrite length_take, length_fmap, length_drop. lia. }
    rewrite lookup_app_r by lia. rewrite lookup_drop.
    apply lookup_replicate. split; [done|lia]. }
  rewrite Forall_lookup in Hs. specialize (Hs _ _ H19).
  unfold inLogrus, runtime_FuncForPC in Hs. rewrite Hzero in Hs.
  by vm_compute in Hs.
Qed.

Lemma getSkipLevel_short_stack_witness :
  ∃ k w', getSkipLevel InfoLevel rtDirect initWorld = (Ok k, w').
Proof.
  apply (getSkipLevel_short_stack InfoLevel rtDirect initWorld).
  - vm_compute. reflexivity.
  - vm_compute. lia.
Defined.

(** * Further properties of Format *)




(** Formatting the same record on the same stack again gives the same
    bytes, and changes nothing any more. *)
Theorem Format_again f entry rt w out w' :
  Format f entry rt w = (Ok out, w') →
  Format f entry rt w' = (Ok out, w').
Proof.
  intros HF. destruct (withSourceInfo f) eqn:Hf.
  - destruct (Format_getSkipLevel _ _ _ _ _ _ Hf HF) as [k Hk].
    pose proof (getSkipLevel_hit _ rt _ _ (getSkipLevel_stored _ _ _ _ _ Hk))
      as Hk'.
    revert HF. unfold Format, formatData. by rewrite Hf, Hk, Hk'.
  - pose proof (Format_world f entry rt w) as Hw. rewrite HF, Hf in Hw.
    simpl in Hw. by subst w'.
Qed.

Lemma Format_again_witness :
  Format (NewGCEFormatter true) (sampleEntry InfoLevel ∅) rtViaLogrus worldInfo5
  = (Ok sampleLineLocated, worldInfo5).
Proof.
  apply (Format_again (NewGCEFormatter true) (sampleEntry InfoLevel ∅)
           rtViaLogrus initWorld).
  vm_compute. reflexivity.
Defined.

(** A formatter built without source info never looks at the stack or
    the cache: its result is the same on every stack and in every world,
    it never is [ErrSkipNotFound], and the world is left as it is. *)
Theorem Format_without_source_info entry rt w rt' w0 :
  (Format (NewGCEFormatter false) entry rt w).2 = w
  ∧ (Format (NewGCEFormatter false) entry rt w).1
    = (Format (NewGCEFormatter false) entry rt' w0).1
  ∧ (Format (NewGCEFormatter false) entry rt w).1 ≠ Err ErrSkipNotFound.
Proof.
  unfold Format, formatData. simpl.
  destruct (json_Marshal _) as [out|e]; simpl; done.
Qed.

Lemma sequence_Err {A} (rs : list (result A)) e :
  sequence rs = Err e → Err e ∈ rs.
Proof.
  induction rs as [|[a|e'] rs IH]; simpl; [done| |].
  - destruct (sequence rs); [done|]. intros [= ->].
    apply elem_of_cons. right. by apply IH.
  - intros [= ->]. apply elem_of_cons. by left.
Qed.

Lemma json_encode_VMap_Err m e :
  json_encode (VMap m) = Err e →
  ∃ k v, m !! k = Some v ∧ json_encode v = Err e.
Proof.
  rewrite json_encode_VMap.
  destruct (sequence _) as [l|e'] eqn:Hs; [done|]. intros [= ->].
  apply sequence_Err in Hs.
  apply list_elem_of_fmap in Hs as ([k r] & Heq & Hin).
  unfold sortKeys in Hin. rewrite merge_sort_Permutation in Hin.
  apply elem_of_map_to_list in Hin. rewrite lookup_fmap in Hin.
  destruct (m !! k) as [v|] eqn:Hk; [|done]. simpl in Hin.
  injection Hin as <-. exists k, v. split; [done|].
  unfold withKey in Heq. simpl in Heq.
  destruct (json_encode v) as [a|e']; [done|]. by injection Heq as ->.
Qed.

Lemma getSkipLevel_Err level rt w e w' :
  getSkipLevel level rt w = (Err e, w') → e = ErrSkipNotFound.
Proof.
  destruct (stackSkips w !! level) as [k0|] eqn:Hl.
  - by rewrite (getSkipLevel_hit _ _ _ k0).
  - rewrite getSkipLevel_miss by done.
    destruct (scanCallers _ _ _); [done|]. by intros [= <- _].
Qed.

(** The two ways [Format] fails: with [ErrSkipNotFound] from the
    resolver, when source info is on; or, a field that is not overwritten
    having a value [json.Marshal] refuses, with the error of that value
    behind the text "failed to marshal fields to JSON, ". *)
Theorem Format_error f entry rt w e w' :
  Format f entry rt w = (Err e, w') →
  (withSourceInfo f = true
   ∧ e = ErrSkipNotFound
   ∧ getSkipLevel (Level_ entry) rt w = (Err ErrSkipNotFound, w'))
  ∨ (∃ k v e0,
       Data entry !! k = Some v
       ∧ k ∉ assignedKeys f entry rt w
       ∧ json_encode (coerce v) = Err e0
       ∧ e = fmt_Errorf ("failed to marshal fields to JSON, " +:+ Error e0)).
Proof.
  unfold Format.
  destruct (formatData f entry rt w) as [[data|e1] w1] eqn:Hd.
  - unfold json_Marshal.
    destruct (json_encode (VMap data)) as [j|e0] eqn:Hj; [done|].
    intros [= <- <-]. right.
    destruct (json_encode_VMap_Err _ _ Hj) as (k & v' & Hk & Hv').
    destruct (decide (k ∈ assignedKeys f entry rt w)) as [Hin|Hout].
    + exfalso. unfold assignedKeys in Hin.
      apply elem_of_app in Hin as [Hin|Hin].
      * assert (k = "time" ∨ k = "severity" ∨ k = "message") as Hcases
          by set_solver.
        destruct Hcases as [->|[->| ->]].
        -- rewrite (data_time _ _ _ _ _ _ Hd) in Hk. by injection Hk as <-.
        -- rewrite (data_severity _ _ _ _ _ _ Hd) in Hk. by injection Hk as <-.
        -- rewrite (data_message _ _ _ _ _ _ Hd) in Hk. by injection Hk as <-.
      * destruct (attachedFrame f entry rt w) as [fr|] eqn:Hfr;
          [|by apply elem_of_nil in Hin].
        apply list_elem_of_singleton in Hin as ->.
        rewrite (data_sourceLocation _ _ _ _ _ _ Hd fr Hfr) in Hk.
        injection Hk as <-. by rewrite json_encode_sourceLocation in Hv'.
    + rewrite (data_field _ _ _ _ _ _ Hd k Hout) in Hk.
      destruct (Data entry !! k) as [v|] eqn:Hk0; [|done].
      injection Hk as <-. by exists k, v, e0.
  - intros [= <- <-]. left. unfold formatData in Hd.
    destruct (withSourceInfo f); [|done]. split; [done|].
    destruct (getSkipLevel _ _ _) as [[k|e2] w2] eqn:Hg.
    + by destruct (runtime_Caller rt k).
    + injection Hd as <- <-. pose proof (getSkipLevel_Err _ _ _ _ _ Hg) as ->.
      done.
Qed.

Lemma Format_error_witness :
  (withSourceInfo (NewGCEFormatter false) = true
   ∧ fmt_Errorf
       "failed to marshal fields to JSON, json: unsupported type: chan int"
     = ErrSkipNotFound
   ∧ getSkipLevel (Level_ entryChan) rtDirect initWorld
     = (Err ErrSkipNotFound, initWorld))
  ∨ (∃ k v e0,
       Data entryChan !! k = Some v
       ∧ k ∉ assignedKeys (NewGCEFormatter false) entryChan rtDirect initWorld
       ∧ json_encode (coerce v) = Err e0
       ∧ fmt_Errorf
           "failed to marshal fields to JSON, json: unsupported type: chan int"
         = fmt_Errorf ("failed to marshal fields to JSON, " +:+ Error e0)).
Proof.
  apply (Format_error (NewGCEFormatter false) entryChan rtDirect initWorld).
  vm_compute. reflexivity.
Defined.




Lemma writeLocked_stored level rt w k w' :
  writeLocked level rt w = (Ok k, w') → stackSkips w' !! level = Some k.
Proof.
  unfold writeLocked. destruct (stackSkips w !! level) as [k0|] eqn:Hl.
  - by intros [= <- <-].
  - destruct (scanCallers _ _ _); intros [= <- <-]. simpl.
    apply lookup_insert_eq.
Qed.

(** A goroutine that has returned stays as it is. *)
Lemma steps_returned w gs w' gs' i r :
  rtc step (w, gs) (w', gs') →
  gs !! i = Some (GReturned r) → gs' !! i = Some (GReturned r).
Proof.
  intros H. remember (w, gs) as x eqn:Hx. remember (w', gs') as y eqn:Hy.
  revert w gs Hx. induction H as [x|x [w1 gs1] y Hstep _ IH];
    intros w gs -> Hi.
  - by injection Hy as -> ->.
  - apply (IH Hy w1 gs1 eq_refl). inversion Hstep as [j ? ? g ? g' Hj Hg];
      subst.
    destruct (decide (i = j)) as [->|Hne].
    + rewrite Hi in Hj. injection Hj as <-. inversion Hg.
    + by rewrite list_lookup_insert_ne.
Qed.

Lemma steps_returned_cached w gs w' gs' i g level k :
  rtc step (w, gs) (w', gs') →
  gs !! i = Some g → levelOf g = Some level →
  gs' !! i = Some (GReturned (Ok k)) →
  stackSkips w' !! level = Some k.
Proof.
  intros H. remember (w, gs) as x eqn:Hx. remember (w', gs') as y eqn:Hy.
  revert w gs g Hx. induction H as [x|x [w1 gs1] y Hstep Hrest IH];
    intros w gs g -> Hi Hlevel Hret.
  - injection Hy as -> ->. rewrite Hi in Hret. injection Hret as ->. done.
  - subst y. inversion Hstep as [j ? ? g0 ? g' Hj Hg]; subst.
    destruct (decide (i = j)) as [->|Hne].
    + rewrite Hi in Hj. injection Hj as <-.
      assert (j < List.length gs)%nat as Hlt by by eapply lookup_lt_Some.
      inversion Hg as [l rt0 ? skip Hhit|l rt0 ? Hmiss|l rt0 ? r ? Hwrite];
        subst; simpl in Hlevel; injection Hlevel as ->.
      * pose proof (steps_returned _ _ _ _ j (Ok skip) Hrest
                      (list_lookup_insert_eq _ _ _ Hlt)) as Hj'.
        rewrite Hj' in Hret. injection Hret as <-.
        exact (lookup_weaken _ _ _ _ Hhit (steps_mono _ _ _ _ Hrest)).
      * eapply (IH eq_refl w1 _ (GWaiting level rt0) eq_refl);
          [by apply list_lookup_insert_eq|done|done].
      * pose proof (steps_returned _ _ _ _ j r Hrest
                      (list_lookup_insert_eq _ _ _ Hlt)) as Hj'.
        rewrite Hj' in Hret. injection Hret as ->.
        exact (lookup_weaken _ _ _ _ (writeLocked_stored _ _ _ _ _ Hwrite)
                 (steps_mono _ _ _ _ Hrest)).
    + eapply (IH eq_refl w1 _ g eq_refl); [|done|done].
      by rewrite list_lookup_insert_ne.
Qed.

(** However the locked sections of concurrent lookups interleave, the
    goroutines that look up one level and get a depth get the same
    depth, the one the cache then holds for the level. *)
Theorem concurrent_lookups_agree w gs w' gs' i j gi gj level ki kj :
  rtc step (w, gs) (w', gs') →
  gs !! i = Some gi → levelOf gi = Some level →
  gs !! j = Some gj → levelOf gj = Some level →
  gs' !! i = Some (GReturned (Ok ki)) →
  gs' !! j = Some (GReturned (Ok kj)) →
  ki = kj ∧ stackSkips w' !! level = Some ki.
Proof.
  intros Hsteps Hi Hli Hj Hlj Hri Hrj.
  pose proof (steps_returned_cached _ _ _ _ _ _ _ _ Hsteps Hi Hli Hri) as H1.
  pose proof (steps_returned_cached _ _ _ _ _ _ _ _ Hsteps Hj Hlj Hrj) as H2.
  rewrite H1 in H2. by injection H2 as ->.
Qed.

(** Both miss under the read lock; the second takes the write lock
    first. *)
Lemma sample_interleaving :
  rtc step (initWorld, samplePool)
    (worldInfo1, [GReturned (Ok 1%nat); GReturned (Ok 1%nat)]).
Proof.
  apply (rtc_l _ _ (initWorld,
           [GWaiting InfoLevel rtViaLogrus; GStart InfoLevel rtDirect])).
  { exact (step_at 0 initWorld samplePool _ initWorld _ eq_refl
             (gstep_miss InfoLevel rtViaLogrus initWorld eq_refl)). }
  apply (rtc_l _ _ (initWorld,
           [GWaiting InfoLevel rtViaLogrus; GWaiting InfoLevel rtDirect])).
  { exact (step_at 1 initWorld
             [GWaiting InfoLevel rtViaLogrus; GStart InfoLevel rtDirect]
             _ initWorld _ eq_refl
             (gstep_miss InfoLevel rtDirect initWorld eq_refl)). }
  apply (rtc_l _ _ (worldInfo1,
           [GWaiting InfoLevel rtViaLogrus; GReturned (Ok 1%nat)])).
  { refine (step_at 1 initWorld
              [GWaiting InfoLevel rtViaLogrus; GWaiting InfoLevel rtDirect]
              _ worldInfo1 _ eq_refl
              (gstep_write InfoLevel rtDirect initWorld (Ok 1%nat) worldInfo1 _)).
    vm_compute. reflexivity. }
  apply (rtc_l _ _ (worldInfo1,
           [GReturned (Ok 1%nat); GReturned (Ok 1%nat)])); [|apply rtc_refl].
  refine (step_at 0 worldInfo1
            [GWaiting InfoLevel rtViaLogrus; GReturned (Ok 1%nat)]
            _ worldInfo1 _ eq_refl
            (gstep_write InfoLevel rtViaLogrus worldInfo1 (Ok 1%nat) worldInfo1 _)).
  vm_compute. reflexivity.
Qed.

Lemma concurrent_lookups_agree_witness :
  1%nat = 1%nat ∧ stackSkips worldInfo1 !! InfoLevel = Some 1%nat.
Proof.
  apply (concurrent_lookups_agree initWorld samplePool worldInfo1
           [GReturned (Ok 1%nat); GReturned (Ok 1%nat)] 0 1
           (GStart InfoLevel rtViaLogrus) (GStart InfoLevel rtDirect)
           InfoLevel 1 1).
  - exact sample_interleaving.
  - reflexivity.
  - reflexivity.
  - reflexivity.
  - reflexivity.
  - reflexivity.
  - reflexivity.
Defined.

Lemma noControl_escapeByte c : noControl (json_escapeByte c).
Proof.
  destruct c as [[] [] [] [] [] [] [] []];
    apply (bool_decide_unpack _); vm_compute; reflexivity.
Qed.

Lemma noControl_appendString_loop fuel s :
  noControl (json_appendString_loop fuel s).
Proof.
  revert s. induction fuel as [|fuel IH]; intros [|c t]; try constructor.
  cbn [json_appendString_loop].
  destruct (N.ltb_spec (bval c) 0x80) as [Hc|Hc].
  { apply Forall_app. split; [apply noControl_escapeByte|apply IH]. }
  destruct (utf8_DecodeRuneInString (c :: t)) as [r size] eqn:Hd.
  destruct ((r =? RuneError) && (size =? 1)%nat) eqn:Hv.
  { constructor; [by vm_compute|]. apply Forall_app. split; [|apply IH].
    apply (bool_decide_unpack _). vm_compute. reflexivity. }
  destruct (decode_multibyte c t r size Hc Hd Hv) as (_ & Hbytes & _).
  destruct ((r =? 0x2028) || (r =? 0x2029)) eqn:Hr.
  - constructor; [by vm_compute|]. apply Forall_app. split.
    { apply (bool_decide_unpack _). vm_compute. reflexivity. }
    constructor; [|apply IH].
    apply orb_true_iff in Hr as [Hr|Hr]; apply N.eqb_eq in Hr; subst r;
      by vm_compute.
  - apply Forall_app. split; [|apply IH].
    eapply Forall_impl; [exact Hbytes|]. intros x Hx. simpl in Hx. lia.
Qed.

Lemma noControl_appendString s : noControl (json_appendString s).
Proof.
  unfold json_appendString. constructor; [by vm_compute|].
  apply Forall_app. split; [apply noControl_appendString_loop|].
  constructor; [by vm_compute|constructor].
Qed.

Lemma noControl_digitChar d : d < 10 → 0x20 <= bval (digitChar d).
Proof. intros Hd. rewrite bval_digitChar by done. lia. Qed.

Lemma noControl_formatBits fuel u acc :
  noControl acc → noControl (formatBits fuel u acc).
Proof.
  revert u acc. induction fuel as [|fuel IH]; intros u acc Hacc;
    cbn [formatBits];
    assert (noControl (digitChar (u mod 10) :: acc)) as Hacc'
      by (constructor; [|done]; apply noControl_digitChar, N.mod_lt; lia);
    [done|].
  destruct (u <? 10); [done|]. by apply IH.
Qed.

Lemma noControl_FormatInt n : noControl (strconv_FormatInt n).
Proof.
  unfold strconv_FormatInt, strconv_FormatUint.
  destruct (n <? 0)%Z.
  - constructor; [by vm_compute|]. apply noControl_formatBits. constructor.
  - apply noControl_formatBits. constructor.
Qed.

Lemma noControl_joinWith sep parts :
  0x20 <= bval sep → Forall noControl parts → noControl (joinWith sep parts).
Proof.
  intros Hsep. induction 1 as [|p parts Hp Hparts IH]; [constructor|].
  cbn [joinWith]. destruct parts as [|q parts]; [done|].
  apply Forall_app. split; [done|]. by constructor.
Qed.

(** [json.Marshal] writes no control character: what it finds in a
    string it escapes. *)
Lemma noControl_render j : noControl (json_render j).
Proof.
  induction j as [|b|n|s|l IH|l IH] using json_ind'.
  - apply (bool_decide_unpack _). vm_compute. reflexivity.
  - destruct b; apply (bool_decide_unpack _); vm_compute; reflexivity.
  - apply noControl_FormatInt.
  - apply noControl_appendString.
  - cbn [json_render]. constructor; [by vm_compute|].
    apply Forall_app. split; [|constructor; [by vm_compute|constructor]].
    apply noControl_joinWith; [by vm_compute|].
    apply Forall_fmap. eapply Forall_impl; [exact IH|]. done.
  - cbn [json_render]. constructor; [by vm_compute|].
    apply Forall_app. split; [|constructor; [by vm_compute|constructor]].
    apply noControl_joinWith; [by vm_compute|].
    apply Forall_fmap. eapply Forall_impl; [exact IH|].
    intros [k v] Hv. cbn [snd] in Hv.
    apply (Forall_app _ (json_appendString k)).
    split; [apply noControl_appendString|].
    constructor; [by vm_compute|done].
Qed.

(** The bytes of a successful [Format] hold one newline, the last
    byte: before it comes no newline and no other control character,
    whatever the strings of the record hold. *)
Theorem Format_one_line f entry rt w out w' :
  Format f entry rt w = (Ok out, w') →
  ∃ body,
    out = body ++ [newline]
    ∧ newline ∉ body
    ∧ Forall (λ c, 0x20 <= bval c) body.
Proof.
  intros HF.
  destruct (Format_Ok _ _ _ _ _ _ HF) as (data & members & _ & Hline & _ & _).
  exists (json_render (JObj members)). split; [done|].
  pose proof (noControl_render (JObj members)) as Hnc. split; [|done].
  intros Hin. unfold noControl in Hnc. rewrite Forall_forall in Hnc.
  specialize (Hnc _ Hin). by vm_compute in Hnc.
Qed.

Lemma Format_one_line_witness :
  ∃ out body,
    Format (NewGCEFormatter false) entryTwoLines rtDirect initWorld
    = (Ok out, initWorld)
    ∧ out = body ++ [newline]
    ∧ newline ∉ body
    ∧ Forall (λ c, 0x20 <= bval c) body.
Proof.
  eexists.
  destruct (Format_one_line (NewGCEFormatter false) entryTwoLines rtDirect
              initWorld _ initWorld ltac:(vm_compute; reflexivity))
    as (body & Hout & Hnl & Hnc).
  exists body. split; [reflexivity|]. split; [exact Hout|].
  split; [exact Hnl|exact Hnc].
Defined.
